(** * Hydraulic network solver of siphonicad: the [Calculations] class

    A shallow embedding of [Calculations] (src/unnamed/part_004, the module
    the canvas imports as [@/lib/calculations]) and the properties its
    specification states about it.

    Modelling conventions.
    - A JavaScript [number] that carries a physical quantity (diameter,
      length, capacity, coordinates and every derived row field) is an IEEE
      binary64 value: Rocq's primitive [float], with the same rounding.
      [===] is [PrimFloat.eqb], [>] is [PrimFloat.ltb] with swapped operands.
    - Identities, branch references and draw indices are integer valued in
      every producer of the input, so they are [Z]; [typeof v === "number"]
      on such a field is [is_Some].
    - An optional or nullable field is an [option]; [null] and [undefined]
      are both [None] (the code only tests them with [== null], [??] and
      [typeof], or compares them with a value that is a number).
    - [Math.log] and [Math.pow] are library functions whose results are
      implementation-approximated; they are parameters of the evaluator. *)

From Stdlib Require Import Floats ZArith String.
From stdpp Require Import base list gmap strings.

Set Warnings "-inexact-float".
Set Default Proof Using "Type".

Local Open Scope string_scope.
Local Open Scope list_scope.

(** ** JavaScript helpers *)

(** [o ?? d] *)
Definition nullish {A} (o : option A) (d : A) : A :=
  match o with Some v => v | None => d end.

Infix "??" := nullish (at level 45, left associativity).

(** [arr.map(f)] where the callback reads and updates a captured variable:
    the variable is threaded through the calls in array order. *)
Fixpoint map_st {S A B} (f : S -> A -> S * B) (s : S) (l : list A) : list B :=
  match l with
  | [] => []
  | x :: l' => let '(s', y) := f s x in y :: map_st f s' l'
  end.

(** The value of the captured variable after [arr.map(f)]. *)
Fixpoint map_st_final {S A B} (f : S -> A -> S * B) (s : S) (l : list A) : S :=
  match l with
  | [] => s
  | x :: l' => map_st_final f (fst (f s x)) l'
  end.

(** ** JavaScript arrays *)

(** [arr.findIndex((c, idx) => p(idx, c))] searched from position [i] on;
    [None] stands for [-1]. *)
Fixpoint findIndex_from {A} (p : nat -> A -> bool) (i : nat) (l : list A)
  : option nat :=
  match l with
  | [] => None
  | x :: l' => if p i x then Some i else findIndex_from p (S i) l'
  end.

Definition findIndex {A} (p : nat -> A -> bool) (l : list A) : option nat :=
  findIndex_from p 0 l.

(** [for (let i = n - 1; i >= 0; i--) if (p(arr[i])) { found = i; break; }].
    Every use starts inside the array, so [arr[i]] is always defined. *)
Fixpoint findIndex_down {A} (p : A -> bool) (l : list A) (n : nat) : option nat :=
  match n with
  | 0 => None
  | S i =>
      match l !! i with
      | Some x => if p x then Some i else findIndex_down p l i
      | None => findIndex_down p l i
      end
  end.

(** [arr.slice(from, to)] for indices that are not negative; [arr.slice(from)]
    is [drop from arr]. *)
Definition slice {A} (from to : nat) (l : list A) : list A :=
  take (to - from) (drop from l).

(** [arr.splice(i, 0, x)] *)
Definition splice_in {A} (i : nat) (x : A) (l : list A) : list A :=
  take i l ++ x :: drop i l.

(** [arr.map((c, index) => ({ c, index })).filter(({ c }) => p(c))
        .map(({ index }) => index)] *)
Definition indexes_of {A} (p : A -> bool) (l : list A) : list nat :=
  fst <$> filter (fun ic => p ic.2) (imap pair l).

(** [arr.sort(cmp)]. The sort is stable: an element moves behind another
    only when [cmp] of the two is positive. With distances that are numbers
    (the comparators here subtract two of them) this is the order every
    conforming engine produces. *)
Fixpoint sort_insert {A} (cmp : A -> A -> float) (x : A) (sorted : list A)
  : list A :=
  match sorted with
  | [] => [x]
  | y :: sorted' =>
      if (0 <? cmp x y)%float then y :: sort_insert cmp x sorted'
      else x :: sorted
  end.

Definition Array_sort {A} (cmp : A -> A -> float) (l : list A) : list A :=
  foldr (sort_insert cmp) [] l.

(** ** Data model *)

(** [component: "node" | "edge"] *)
Inductive component_kind := node | edge.

#[global] Instance component_kind_eq_dec : EqDecision component_kind.
Proof. solve_decision. Defined.

(** [EquationsComponent] *)
Module EC.
Record t := mk {
  component : component_kind;
  id : Z;
  type : option string;
  fromId : option Z;
  toId : option Z;
  x : option float;
  y : option float;
  diameter : option float;
  length : option float;
  capacity : option float;
  tee_ref : option Z;
  draw_index : option Z;
  vertical : option bool;
}.

(** [{ ...c, type: v }] and the like. *)
Definition with_type (v : option string) (c : t) : t :=
  mk (component c) (id c) v (fromId c) (toId c) (x c) (y c) (diameter c)
     (length c) (capacity c) (tee_ref c) (draw_index c) (vertical c).
Definition with_diameter (v : option float) (c : t) : t :=
  mk (component c) (id c) (type c) (fromId c) (toId c) (x c) (y c) v
     (length c) (capacity c) (tee_ref c) (draw_index c) (vertical c).
Definition with_capacity (v : option float) (c : t) : t :=
  mk (component c) (id c) (type c) (fromId c) (toId c) (x c) (y c) (diameter c)
     (length c) v (tee_ref c) (draw_index c) (vertical c).
Definition with_tee_ref (v : option Z) (c : t) : t :=
  mk (component c) (id c) (type c) (fromId c) (toId c) (x c) (y c) (diameter c)
     (length c) (capacity c) v (draw_index c) (vertical c).
Definition with_vertical (v : option bool) (c : t) : t :=
  mk (component c) (id c) (type c) (fromId c) (toId c) (x c) (y c) (diameter c)
     (length c) (capacity c) (tee_ref c) (draw_index c) v.
Definition with_draw_index (v : option Z) (c : t) : t :=
  mk (component c) (id c) (type c) (fromId c) (toId c) (x c) (y c) (diameter c)
     (length c) (capacity c) (tee_ref c) v (vertical c).

(** [c.type === s] *)
Definition type_is (s : string) (c : t) : bool :=
  match type c with Some ty => String.eqb ty s | None => false end.
End EC.

(** ** Normalizer: tee fill *)

(** Step 1 of [fillTee], the body of [for (const comp of result)];
    [nextTeeRef] is the captured counter. *)
Definition normalize_tee (nextTeeRef : Z) (comp : EC.t) : Z * EC.t :=
  if EC.type_is "tee" comp then
    match EC.tee_ref comp with
    | None =>
        ((nextTeeRef + 1)%Z,
         EC.with_type (Some "tee_main") (EC.with_tee_ref (Some nextTeeRef) comp))
    | Some ref =>
        (Z.max nextTeeRef (ref + 1), EC.with_type (Some "tee_main") comp)
    end
  else (nextTeeRef, comp).

(** Step 2, the body of [for (let k = 0; k < pairCount; k++)] for the pair
    [(teeIndexes[k], outletIndexes[k])]. *)
Definition pair_outlet (result : list EC.t) (p : nat * nat) : list EC.t :=
  let '(teeIdx, outletIdx) := p in
  match result !! teeIdx, result !! outletIdx with
  | Some tee, Some outlet =>
      match EC.tee_ref outlet, EC.tee_ref tee with
      | None, Some ref => <[outletIdx := EC.with_tee_ref (Some ref) outlet]> result
      | _, _ => result
      end
  | _, _ => result
  end.

Definition isPipeVertical (arr : list EC.t) (idx : nat) : bool :=
  match (match idx with S i => arr !! i | O => None end), arr !! (idx + 1)%nat with
  | Some prev, Some next =>
      match EC.x prev, EC.x next with
      | Some px, Some nx => (abs (px - nx) <=? 0.001)%float
      | _, _ => false
      end
  | _, _ => false
  end.

(** The object literal [elbow90] for the tee at [result[idx]]. *)
Definition make_elbow90 (result : list EC.t) (idx : nat) (tee : EC.t) : EC.t :=
  {| EC.component := node;
     EC.id := Z.of_nat (length result);
     EC.type := Some "elbow90";
     EC.fromId := Some (EC.id tee);
     EC.toId := EC.id <$> result !! (idx + 1)%nat;
     EC.x := EC.x tee;
     EC.y := EC.y tee;
     EC.diameter := None;
     EC.length := None;
     EC.capacity := None;
     EC.tee_ref := EC.tee_ref tee;
     EC.draw_index := None;
     EC.vertical := None |}.

(** Step 3 for the tee at [result[idx]], which is always inside the array:
    the [elbow90] to insert after it, when the nearest pipes before and
    after the tee differ in verticality. *)
Definition elbow90_at (result : list EC.t) (idx : nat) : option EC.t :=
  let beforePipeIdx := findIndex_down (EC.type_is "pipe") result idx in
  let afterPipeIdx :=
    findIndex (fun i c => (idx <? i)%nat && EC.type_is "pipe" c) result in
  match beforePipeIdx, afterPipeIdx, result !! idx with
  | Some beforePipeIdx, Some afterPipeIdx, Some tee =>
      if negb (Bool.eqb (isPipeVertical result beforePipeIdx)
                        (isPipeVertical result afterPipeIdx))
      then Some (make_elbow90 result idx tee)
      else None
  | _, _, _ => None
  end.

(** The body of [for (const teeIdx of teeIndexes)]; the state is
    [indexOffset] and the array [result]. *)
Definition insert_elbow90 (st : nat * list EC.t) (teeIdx : nat) : nat * list EC.t :=
  let '(indexOffset, result) := st in
  let idx := (teeIdx + indexOffset)%nat in
  match elbow90_at result idx with
  | Some elbow90 => (S indexOffset, splice_in (idx + 1) elbow90 result)
  | None => st
  end.

(** The object literals [teeSide] and [elbow45]. [n] is [result.length]
    before the two insertions. *)
Definition make_teeSide (n : nat) (outlet : EC.t) (next : option EC.t) : EC.t :=
  {| EC.component := node;
     EC.id := Z.of_nat n;
     EC.type := Some "tee_side";
     EC.fromId := Some (EC.id outlet);
     EC.toId := EC.id <$> next;
     EC.x := EC.x outlet;
     EC.y := EC.y outlet;
     EC.diameter := None;
     EC.length := None;
     EC.capacity := None;
     EC.tee_ref := EC.tee_ref outlet;
     EC.draw_index := EC.draw_index outlet;
     EC.vertical := None |}.

Definition make_elbow45 (n : nat) (teeSide : EC.t) : EC.t :=
  {| EC.component := node;
     EC.id := Z.of_nat (n + 1 + 1);
     EC.type := Some "elbow45";
     EC.fromId := Some (EC.id teeSide);
     EC.toId := EC.toId teeSide;
     EC.x := EC.x teeSide;
     EC.y := EC.y teeSide;
     EC.diameter := None;
     EC.length := None;
     EC.capacity := None;
     EC.tee_ref := EC.tee_ref teeSide;
     EC.draw_index := None;
     EC.vertical := None |}.

(** [next && next.type === "tee_side" && next.tee_ref === outlet.tee_ref] *)
Definition has_tee_side (outlet : EC.t) (next : option EC.t) : bool :=
  match next with
  | Some next =>
      EC.type_is "tee_side" next
      && bool_decide (EC.tee_ref next = EC.tee_ref outlet)
  | None => false
  end.

(** Step 5 for the outlet at [result[outletIndex]]: the [teeSide] and
    [elbow45] to insert after it, unless a matching [tee_side] follows it
    already. *)
Definition tee_side_at (result : list EC.t) (outletIndex : nat)
  : option (EC.t * EC.t) :=
  match result !! outletIndex with
  | None => None
  | Some outlet =>
      let next := result !! (outletIndex + 1)%nat in
      if has_tee_side outlet next then None else
      let teeSide := make_teeSide (length result) outlet next in
      Some (teeSide, make_elbow45 (length result) teeSide)
  end.

(** The body of [for (const outletIndex of outletIndexesWithTeeRef)]. *)
Definition insert_tee_side (result : list EC.t) (outletIndex : nat) : list EC.t :=
  match tee_side_at result outletIndex with
  | Some (teeSide, elbow45) =>
      let teeSideIndex := (outletIndex + 1)%nat in
      splice_in (teeSideIndex + 1) elbow45 (splice_in teeSideIndex teeSide result)
  | None => result
  end.

Definition fillTee (components : list EC.t) : list EC.t :=
  let result := map_st normalize_tee 0%Z components in
  let teeIndexes := indexes_of (EC.type_is "tee_main") result in
  let outletIndexes := indexes_of (EC.type_is "outlet") result in
  let result := foldl pair_outlet result (zip teeIndexes outletIndexes) in
  let result := (foldl insert_elbow90 (0%nat, result) teeIndexes).2 in
  let outletIndexesWithTeeRef :=
    reverse (indexes_of (fun c => EC.type_is "outlet" c
                                  && bool_decide (is_Some (EC.tee_ref c))) result) in
  foldl insert_tee_side result outletIndexesWithTeeRef.

(** ** Normalizer: diameter fill *)

(** The body of the [map] callback of [fillDiameter]; [current] is the
    captured running diameter. *)
Definition fillDiameter_step (current : float) (comp : EC.t) : float * EC.t :=
  let current :=
    match EC.diameter comp with
    | Some d => if EC.type_is "pipe" comp then d else current
    | None => current
    end in
  (current, EC.with_diameter (Some current) comp).

Definition fillDiameter (components : list EC.t) : list EC.t :=
  let current := (components !! 1%nat ≫= EC.diameter) ?? 0%float in
  map_st fillDiameter_step current components.

(** ** Normalizer: capacity fill (the flow propagator) *)

(** The captured variables of the [map] callback of [fillCapacity]:
    [current] and [sideFlowByRef]. *)
Definition flow_state : Type := float * gmap Z float.

(** The body of the [map] callback of [fillCapacity]. *)
Definition fillCapacity_step (st : flow_state) (comp : EC.t) : flow_state * EC.t :=
  let '(current, sideFlowByRef) := st in
  if EC.type_is "outlet" comp then
    let own := EC.capacity comp ?? 0%float in
    ((current + own, sideFlowByRef)%float, EC.with_capacity (Some own) comp)
  else
    match EC.tee_ref comp with
    | Some ref =>
        if EC.type_is "tee_side" comp then
          ((0%float, <[ref := current]> sideFlowByRef),
           EC.with_capacity (Some current) comp)
        else if EC.type_is "tee_main" comp then
          let side := (sideFlowByRef !! ref) ?? 0%float in
          ((current + side, sideFlowByRef)%float,
           EC.with_capacity (Some current) comp)
        else (st, EC.with_capacity (Some current) comp)
    | None => (st, EC.with_capacity (Some current) comp)
    end.

Definition fillCapacity (components : list EC.t) : list EC.t :=
  let reversed := reverse components in
  let resultReversed := map_st fillCapacity_step (0%float, ∅) reversed in
  reverse resultReversed.

(** [current] and [sideFlowByRef] once the walk has come up to the head of
    [components]. *)
Definition fillCapacity_state (components : list EC.t) : flow_state :=
  map_st_final fillCapacity_step (0%float, ∅) (reverse components).

(** The side-branch flow a [tee_main] with reference [ref] reads from
    [sideFlowByRef]: the capacity given to the nearest [tee_side] with that
    reference in [downstream], 0 when there is none. *)
Definition is_tee_side_of (ref : Z) (c : EC.t) : bool :=
  EC.type_is "tee_side" c && bool_decide (EC.tee_ref c = Some ref).

Definition side_flow (ref : Z) (downstream : list EC.t) : float :=
  (List.find (is_tee_side_of ref) downstream ≫= EC.capacity) ?? 0%float.

(** ** Path decomposer: reducer insertion *)

(** [currD] and [nextD] of [insertReducersForDiameterChanges]: a component's
    own diameter, else its neighbour's, else 0. *)
Definition resolved_diameter (c neighbour : EC.t) : float :=
  EC.diameter c ?? (EC.diameter neighbour ?? 0%float).

(** The test guarding the insertion of a reducer between [curr] and [next]. *)
Definition reducer_needed (curr next : EC.t) : bool :=
  bool_decide (EC.component curr = node)
  && negb (EC.type_is "reducer" curr)
  && EC.type_is "pipe" next
  && (let currD := resolved_diameter curr next in
      let nextD := resolved_diameter next curr in
      (0 <? currD)%float && (0 <? nextD)%float && negb (currD =? nextD)%float).

(** The object literal [reducer]; fields it does not list are absent. *)
Definition make_reducer (id : Z) (curr next : EC.t) : EC.t :=
  {| EC.component := node;
     EC.id := id;
     EC.type := Some "reducer";
     EC.fromId := None;
     EC.toId := None;
     EC.x := EC.x curr;
     EC.y := EC.y curr;
     EC.diameter := Some (resolved_diameter curr next);
     EC.length := None;
     EC.capacity := Some (EC.capacity next ?? (EC.capacity curr ?? 0%float));
     EC.tee_ref := None;
     EC.draw_index := None;
     EC.vertical := None |}.

(** The inner loop over one path; [maxId] is the counter shared by all
    paths, returned with the new path. *)
Fixpoint insertReducers_path (maxId : Z) (path : list EC.t) : Z * list EC.t :=
  match path with
  | [] => (maxId, [])
  | curr :: rest =>
      match rest with
      | [] => (maxId, [curr])
      | next :: _ =>
          if reducer_needed curr next then
            let maxId := (maxId + 1)%Z in
            let '(m, newPath) := insertReducers_path maxId rest in
            (m, curr :: make_reducer maxId curr next :: newPath)
          else
            let '(m, newPath) := insertReducers_path maxId rest in
            (m, curr :: newPath)
      end
  end.

(** The largest [id] over all paths, [-1] when there is none. *)
Definition max_component_id (paths : list (list EC.t)) : Z :=
  foldl (foldl (fun maxId c => if (maxId <? EC.id c)%Z then EC.id c else maxId))
        (-1)%Z paths.

Definition insertReducersForDiameterChanges (paths : list (list EC.t))
  : list (list EC.t) :=
  match paths with
  | [] => paths
  | _ => map_st insertReducers_path (max_component_id paths) paths
  end.

(** *** What the specification says of reducer insertion

    The definitions below follow the specification's words and read the
    components' own fields; they use none of the definitions of the
    embedding above, and are compared with it in Part II. *)

(** The resolved diameter of a component beside its neighbour in the path:
    the component's own diameter when it has one, else the neighbour's, else
    0. *)
Definition diameter_beside (c neighbour : EC.t) : float :=
  match EC.diameter c, EC.diameter neighbour with
  | Some own, _ => own
  | None, Some borrowed => borrowed
  | None, None => 0%float
  end.

(** The capacity a reducer inherits: the following pipe's when it has one,
    else the node's, else 0. *)
Definition inherited_capacity (curr next : EC.t) : float :=
  match EC.capacity next, EC.capacity curr with
  | Some of_pipe, _ => of_pipe
  | None, Some of_node => of_node
  | None, None => 0%float
  end.

(** A non-reducer node immediately followed by a pipe, both resolved
    diameters positive and different. *)
Definition diameter_change (curr next : EC.t) : Prop :=
  EC.component curr = node /\ EC.type curr <> Some "reducer" /\
  EC.type next = Some "pipe" /\
  (0 <? diameter_beside curr next)%float = true /\
  (0 <? diameter_beside next curr)%float = true /\
  (diameter_beside curr next =? diameter_beside next curr)%float = false.

(** A synthetic reducer for the node [curr] and the pipe [next]: a node of
    type [reducer] with the node's (upstream) resolved diameter, which is
    the node's own [diameter] field whenever the node has one, and the
    inherited capacity. *)
Definition synthetic_reducer_for (curr next r : EC.t) : Prop :=
  EC.component r = node /\ EC.type r = Some "reducer" /\
  EC.diameter r = Some (diameter_beside curr next) /\
  (forall d, EC.diameter curr = Some d -> EC.diameter r = Some d) /\
  EC.capacity r = Some (inherited_capacity curr next).

(** A path and its output: exactly one synthetic reducer stands between
    each non-reducer node and the differing pipe that follows it, and the
    path is otherwise unchanged. *)
Inductive reducers_spliced : list EC.t -> list EC.t -> Prop :=
  | spliced_nil : reducers_spliced [] []
  | spliced_last c : reducers_spliced [c] [c]
  | spliced_keep c n rest out :
      ~ diameter_change c n ->
      reducers_spliced (n :: rest) out ->
      reducers_spliced (c :: n :: rest) (c :: out)
  | spliced_insert c n rest r out :
      diameter_change c n ->
      synthetic_reducer_for c n r ->
      reducers_spliced (n :: rest) out ->
      reducers_spliced (c :: n :: rest) (c :: r :: out).

(** ** Path decomposer: outlet paths *)

(** A [Map<number, number>] as the list of its entries in insertion order:
    [set] on a key already present keeps the key's place. *)
Fixpoint Map_set (k : Z) (v : nat) (m : list (Z * nat)) : list (Z * nat) :=
  match m with
  | [] => [(k, v)]
  | (k', v') :: m' =>
      if (k' =? k)%Z then (k, v) :: m' else (k', v') :: Map_set k v m'
  end.

Definition Map_get (k : Z) (m : list (Z * nat)) : option nat :=
  snd <$> List.find (fun e => (e.1 =? k)%Z) m.

(** [teeMainByRef] (for [ty = "tee_main"]) and [teeSideByRef] (for
    [ty = "tee_side"]) as the [forEach] leaves them. *)
Definition teeByRef (ty : string) (components : list EC.t) : list (Z * nat) :=
  foldl (fun m ic =>
           match EC.tee_ref ic.2 with
           | Some ref => if EC.type_is ty ic.2 then Map_set ref ic.1 m else m
           | None => m
           end) [] (imap pair components).

(** [c.type === "tee_main" || c.type === "tee_side"] *)
Definition is_tee (c : EC.t) : bool :=
  EC.type_is "tee_main" c || EC.type_is "tee_side" c.

(** The main branch of the tee [ref]: from the discharge to the first outlet
    paired with [ref] at or after the tee; [None] when there is no such
    outlet. *)
Definition mainPath (components : list EC.t) (dischargeIndex : nat)
    (ref : Z) (mainIdx : nat) : option (list EC.t) :=
  match findIndex (fun idx c => (mainIdx <=? idx)%nat && EC.type_is "outlet" c
                                && bool_decide (EC.tee_ref c = Some ref))
                  components with
  | Some firstOutletIdx =>
      Some (slice dischargeIndex (firstOutletIdx + 1) components)
  | None => None
  end.

(** The walk from the [tee_side] forward: [start] holds at [i = sideIdx]. *)
Fixpoint side_branch (start : bool) (l : list EC.t) : list EC.t :=
  match l with
  | [] => []
  | c :: l' =>
      if negb start && (EC.type_is "tee_main" c || EC.type_is "discharge" c)
      then []
      else if EC.type_is "outlet" c then [c]
      else c :: side_branch false l'
  end.

(** The side branch: the components from the discharge up to the tee, tees
    left out, then the walk from the [tee_side]. *)
Definition sidePath (components : list EC.t) (dischargeIndex mainIdx sideIdx : nat)
  : list EC.t :=
  filter (fun c => negb (is_tee c))
         (slice dischargeIndex (mainIdx `min` sideIdx) components)
  ++ side_branch true (drop sideIdx components).

(** The body of [for (const [ref, mainIdx] of teeMainByRef.entries())]; the
    state is [handledRefs] and [result]. *)
Definition branch_paths (components : list EC.t) (dischargeIndex : nat)
    (teeSideByRef : list (Z * nat))
    (st : gset Z * list (list EC.t)) (entry : Z * nat)
  : gset Z * list (list EC.t) :=
  let '(handledRefs, result) := st in
  let '(ref, mainIdx) := entry in
  if decide (ref ∈ handledRefs) then st else
  let handledRefs := {[ref]} ∪ handledRefs in
  let result :=
    match mainPath components dischargeIndex ref mainIdx with
    | Some mainPath => result ++ [mainPath]
    | None => result
    end in
  let result :=
    match Map_get ref teeSideByRef with
    | Some sideIdx =>
        let sidePath := sidePath components dischargeIndex mainIdx sideIdx in
        if (0 <? length sidePath)%nat then result ++ [sidePath] else result
    | None => result
    end in
  (handledRefs, result).

(** [lastOutletIdx] and [lastOutletId] after the scan of [path]. *)
Definition lastOutlet (path : list EC.t) : option (nat * Z) :=
  foldl (fun found ic =>
           if EC.type_is "outlet" ic.2 then Some (ic.1, EC.id ic.2) else found)
        None (imap pair path).

(** The body of [for (const path of result)]; the state is [seenOutletIds]
    and [dedupedByOutlet]. *)
Definition dedupe (st : gset Z * list (list EC.t)) (path : list EC.t)
  : gset Z * list (list EC.t) :=
  let '(seenOutletIds, dedupedByOutlet) := st in
  match lastOutlet path with
  | None => st
  | Some (lastOutletIdx, lastOutletId) =>
      if decide (lastOutletId ∈ seenOutletIds) then st
      else ({[lastOutletId]} ∪ seenOutletIds,
            dedupedByOutlet ++ [slice 0 (lastOutletIdx + 1) path])
  end.

(** The single path used when no branch path was kept. *)
Definition fallback_path (components : list EC.t) (dischargeIndex : nat)
  : list EC.t :=
  match last (omap (fun idx => idx)
                (imap (fun idx c => if EC.type_is "outlet" c then Some idx else None)
                      components)) with
  | Some lastOutletIdx => slice dischargeIndex (lastOutletIdx + 1) components
  | None => drop dischargeIndex components
  end.

(** [PathMeta] *)
Module PathMeta.
Record t := mk {
  path : list EC.t;
  outletId : Z;
  teeRef : option Z;
  distFromTee : float;
}.
End PathMeta.

(** The pipe length summed by [for (let i = teeIdx; i < outletIdx; i++)]. *)
Definition branch_length (path : list EC.t) (teeIdx outletIdx : nat) : float :=
  foldl (fun dist c =>
           if EC.type_is "pipe" c then
             match EC.length c with
             | Some len => (dist + len)%float
             | None => dist
             end
           else dist) 0%float (slice teeIdx outletIdx path).

(** The callback of [dedupedByOutlet.map] that builds [metas]. *)
Definition meta_of (path : list EC.t) : PathMeta.t :=
  let outletIdx := findIndex_down (EC.type_is "outlet") path (length path) in
  let outlet := outletIdx ≫= (fun i => path !! i) in
  let outletId := from_option EC.id (-1)%Z outlet in
  let teeRef := outlet ≫= EC.tee_ref in
  let dist :=
    match teeRef, outletIdx with
    | Some ref, Some outletIdx =>
        let teeIdx :=
          match findIndex (fun _ c => EC.type_is "tee_main" c
                                      && bool_decide (EC.tee_ref c = Some ref)) path with
          | Some teeIdx => Some teeIdx
          | None => findIndex (fun _ c => EC.type_is "tee_side" c
                                          && bool_decide (EC.tee_ref c = Some ref)) path
          end in
        match teeIdx with
        | Some teeIdx =>
            if (teeIdx <? outletIdx)%nat then branch_length path teeIdx outletIdx
            else 0%float
        | None => 0%float
        end
    | _, _ => 0%float
    end in
  PathMeta.mk path outletId teeRef dist.

(** A [PathMeta] object together with its identity, which is its position in
    [metas]: [indexOf] compares objects by identity. *)
Definition meta_ref : Type := nat * PathMeta.t.

(** The closure [take]; the state is [orderedMetas] and [remainingMetas]. *)
Definition take_meta (meta : option meta_ref) (st : list meta_ref * list meta_ref)
  : list meta_ref * list meta_ref :=
  let '(orderedMetas, remainingMetas) := st in
  match meta with
  | None => st
  | Some meta =>
      match findIndex (fun _ m => (m.1 =? meta.1)%nat) remainingMetas with
      | Some idx => (orderedMetas ++ [meta], delete idx remainingMetas)
      | None => st
      end
  end.

(** [(a, b) => b.distFromTee - a.distFromTee] *)
Definition by_distance_desc (a b : meta_ref) : float :=
  (PathMeta.distFromTee b.2 - PathMeta.distFromTee a.2)%float.

(** The reordering of the outlet paths at the end of [splitByOutlet]. *)
Definition reorder (dedupedByOutlet : list (list EC.t)) : list (list EC.t) :=
  let metas := imap (fun i path => (i, meta_of path)) dedupedByOutlet in
  let withTee :=
    filter (fun m : meta_ref => bool_decide (is_Some (PathMeta.teeRef m.2))
                     && (0 <? PathMeta.distFromTee m.2)%float) metas in
  match withTee with
  | [] => dedupedByOutlet
  | first :: _ =>
      let firstMeta :=
        foldl (fun firstMeta m : meta_ref =>
                 if (PathMeta.distFromTee firstMeta.2 <? PathMeta.distFromTee m.2)%float
                 then m else firstMeta) first withTee in
      let st := take_meta (Some firstMeta) ([], metas) in
      let siblingMeta :=
        head (Array_sort by_distance_desc
                (filter (fun m : meta_ref => bool_decide
                           (PathMeta.teeRef m.2 = PathMeta.teeRef firstMeta.2))
                        st.2)) in
      let '(orderedMetas, remainingMetas) := take_meta siblingMeta st in
      (fun m : meta_ref => PathMeta.path m.2)
        <$> (orderedMetas ++ Array_sort by_distance_desc remainingMetas)
  end.

Definition splitByOutlet (components : list EC.t) : list (list EC.t) :=
  if decide (length components = 0%nat) then [] else
  match findIndex (fun _ c => EC.type_is "discharge" c) components with
  | None => [components]
  | Some dischargeIndex =>
      let teeMainByRef := teeByRef "tee_main" components in
      let teeSideByRef := teeByRef "tee_side" components in
      let result :=
        (foldl (branch_paths components dischargeIndex teeSideByRef)
               (∅, []) teeMainByRef).2 in
      let dedupedByOutlet := (foldl dedupe (∅, []) result).2 in
      let dedupedByOutlet :=
        if decide (length dedupedByOutlet = 0%nat)
        then [fallback_path components dischargeIndex]
        else dedupedByOutlet in
      reorder dedupedByOutlet
  end.

(** ** The organizer *)

Definition organize (components : list EC.t) : list (list EC.t) :=
  let filled := fillDiameter (fillCapacity (fillTee components)) in
  let byOutlet := splitByOutlet filled in
  insertReducersForDiameterChanges byOutlet.

(** ** Rows *)

(** [EquationRow]. Every optional field is set by [preNormalize], the only
    producer of the rows [normalize] receives, so the fields are plain values
    and the [?? 0] defaults of [normalize] are the identity. *)
Module ER.
Record t := mk {
  index : Z;
  item : string;
  Q : float;
  d : float;
  L : float;
  vertical : bool;
  elbow : float;
  reducer : bool;
  t90 : float;
  d90 : float;
  q90 : float;
  di : float;
  V : float;
  h : float;
  Re : float;
  f : float;
  a : float;
  ktee : float;
  kred : float;
  ktotal : float;
  vp : float;
  delta_H : float;
  delta_P : float;
}.

(** [row.h = v] and the like, as a new record. *)
Definition with_h (v : float) (r : t) : t :=
  mk (index r) (item r) (Q r) (d r) (L r) (vertical r) (elbow r) (reducer r)
     (t90 r) (d90 r) (q90 r) (di r) (V r) v (Re r) (f r) (a r) (ktee r)
     (kred r) (ktotal r) (vp r) (delta_H r) (delta_P r).
Definition with_Re (v : float) (r : t) : t :=
  mk (index r) (item r) (Q r) (d r) (L r) (vertical r) (elbow r) (reducer r)
     (t90 r) (d90 r) (q90 r) (di r) (V r) (h r) v (f r) (a r) (ktee r) (kred
     r) (ktotal r) (vp r) (delta_H r) (delta_P r).
Definition with_f (v : float) (r : t) : t :=
  mk (index r) (item r) (Q r) (d r) (L r) (vertical r) (elbow r) (reducer r)
     (t90 r) (d90 r) (q90 r) (di r) (V r) (h r) (Re r) v (a r) (ktee r)
     (kred r) (ktotal r) (vp r) (delta_H r) (delta_P r).
Definition with_a (v : float) (r : t) : t :=
  mk (index r) (item r) (Q r) (d r) (L r) (vertical r) (elbow r) (reducer r)
     (t90 r) (d90 r) (q90 r) (di r) (V r) (h r) (Re r) (f r) v (ktee r)
     (kred r) (ktotal r) (vp r) (delta_H r) (delta_P r).
Definition with_ktee (v : float) (r : t) : t :=
  mk (index r) (item r) (Q r) (d r) (L r) (vertical r) (elbow r) (reducer r)
     (t90 r) (d90 r) (q90 r) (di r) (V r) (h r) (Re r) (f r) (a r) v (kred
     r) (ktotal r) (vp r) (delta_H r) (delta_P r).
Definition with_kred (v : float) (r : t) : t :=
  mk (index r) (item r) (Q r) (d r) (L r) (vertical r) (elbow r) (reducer r)
     (t90 r) (d90 r) (q90 r) (di r) (V r) (h r) (Re r) (f r) (a r) (ktee r)
     v (ktotal r) (vp r) (delta_H r) (delta_P r).
Definition with_ktotal (v : float) (r : t) : t :=
  mk (index r) (item r) (Q r) (d r) (L r) (vertical r) (elbow r) (reducer r)
     (t90 r) (d90 r) (q90 r) (di r) (V r) (h r) (Re r) (f r) (a r) (ktee r)
     (kred r) v (vp r) (delta_H r) (delta_P r).
Definition with_vp (v : float) (r : t) : t :=
  mk (index r) (item r) (Q r) (d r) (L r) (vertical r) (elbow r) (reducer r)
     (t90 r) (d90 r) (q90 r) (di r) (V r) (h r) (Re r) (f r) (a r) (ktee r)
     (kred r) (ktotal r) v (delta_H r) (delta_P r).
Definition with_delta_H (v : float) (r : t) : t :=
  mk (index r) (item r) (Q r) (d r) (L r) (vertical r) (elbow r) (reducer r)
     (t90 r) (d90 r) (q90 r) (di r) (V r) (h r) (Re r) (f r) (a r) (ktee r)
     (kred r) (ktotal r) (vp r) v (delta_P r).
Definition with_delta_P (v : float) (r : t) : t :=
  mk (index r) (item r) (Q r) (d r) (L r) (vertical r) (elbow r) (reducer r)
     (t90 r) (d90 r) (q90 r) (di r) (V r) (h r) (Re r) (f r) (a r) (ktee r)
     (kred r) (ktotal r) (vp r) (delta_H r) v.
End ER.

(** ** Hydraulic evaluator and row projector *)

Section evaluator.

(** [Math.log] and [Math.pow]. *)
Variable Math_log : float -> float.
Variable Math_pow : float -> float -> float.

(** [this.canonicalComponents]; [this.input.components] is a field-for-field
    copy of it, so the fallback [canonicalComponents.length > 0 ? ... :
    this.input.components] always denotes this list. *)
Variable canonicalComponents : list EC.t.

Definition Math_PI : float := 3.141592653589793%float.

Definition getDi (diameter : float) : float := ((0.922 * diameter) / 1000)%float.

Definition getVelocity (Q di : float) : float :=
  if (di =? 0)%float then 0%float
  else ((Q * 0.004) / (Math_PI * di * di))%float.

Definition computeVerticalFlag (comp : EC.t) (components : list EC.t) : bool :=
  if negb (EC.type_is "pipe" comp) then false else
  match EC.fromId comp, EC.toId comp with
  | Some fromId, Some toId =>
      let fromNode := List.find (fun c =>
        bool_decide (EC.component c = node) && (EC.id c =? fromId)%Z) components in
      let toNode := List.find (fun c =>
        bool_decide (EC.component c = node) && (EC.id c =? toId)%Z) components in
      match fromNode, toNode with
      | Some fromNode, Some toNode =>
          match EC.x fromNode, EC.x toNode, EC.y fromNode, EC.y toNode with
          | Some fx, Some tx, Some fy, Some ty =>
              let TOL := 0.001%float in
              (abs (fx - tx) <=? TOL)%float && (TOL <? abs (fy - ty))%float
          | _, _, _, _ => false
          end
      | _, _ => false
      end
  | _, _ => false
  end.

Definition isVertical (comp : EC.t) : bool :=
  if negb (EC.type_is "pipe" comp) then false else
  match EC.vertical comp with
  | Some v => v
  | None => computeVerticalFlag comp canonicalComponents
  end.

Definition countElbow (comp : EC.t) : float :=
  if EC.type_is "elbow90" comp then 2%float
  else if EC.type_is "elbow45" comp then 1%float
  else 0%float.

Definition getT90 (comp : EC.t) : float :=
  if EC.type_is "tee_main" comp then 1%float
  else if EC.type_is "tee_side" comp then 0.5%float
  else 0%float.

(** [s.startsWith("tee")] *)
Definition starts_with_tee (s : string) : bool := String.prefix "tee" s.

Definition getD90 (comp : EC.t) : float :=
  if negb (from_option starts_with_tee false (EC.type comp)) then 0%float else
  match EC.draw_index comp with
  | None => 0%float
  | Some drawIndex =>
      let next := List.find (fun c =>
        bool_decide (EC.draw_index c = Some (drawIndex + 1)%Z)) canonicalComponents in
      (next ≫= EC.diameter) ?? 0%float
  end.

Definition getQ90 (comp : EC.t) : float :=
  if EC.type_is "tee_main" comp then 0.5%float
  else if EC.type_is "tee_side" comp then 1%float
  else 0%float.

(** The callback of the inner [map] of [preNormalize]; [index] is the
    position of [comp] in its path. *)
Definition preNormalize_row (index : nat) (comp : EC.t) : ER.t :=
  let di := getDi (EC.diameter comp ?? 0%float) in
  let drawIndex := EC.draw_index comp ?? (Z.of_nat index + 1)%Z in
  {| ER.index := drawIndex;
     ER.item := EC.type comp ?? "";
     ER.Q := EC.capacity comp ?? 0%float;
     ER.d := EC.diameter comp ?? 0%float;
     ER.L := EC.length comp ?? 0%float;
     ER.vertical := isVertical comp;
     ER.elbow := countElbow comp;
     ER.reducer := EC.type_is "reducer" comp;
     ER.t90 := getT90 comp;
     ER.d90 := getD90 comp;
     ER.q90 := getQ90 comp;
     ER.di := di;
     ER.V := getVelocity (EC.capacity comp ?? 0%float) di;
     ER.h := 0; ER.Re := 0; ER.f := 0; ER.a := 0; ER.ktee := 0; ER.kred := 0;
     ER.ktotal := 0; ER.vp := 0; ER.delta_H := 0; ER.delta_P := 0 |}.

Definition preNormalize_path (compSet : list EC.t) : list ER.t :=
  imap preNormalize_row compSet.

Definition preNormalize (components : list (list EC.t)) : list (list ER.t) :=
  preNormalize_path <$> components.

(** *** The passes of [normalize] over one path *)

(** Cumulative elevation head and area ratio: the loop from [i = 1];
    [prev] is [updated[i - 1]] as the loop left it, the head of the list is
    [updated[i]] and what follows it is still untouched. *)
Fixpoint head_and_area_from (prev : ER.t) (rest : list ER.t) : list ER.t :=
  match rest with
  | [] => []
  | curr :: rest' =>
      let prevVertical := if ER.vertical prev then 1%float else 0%float in
      let h := (ER.h curr + (ER.h prev + ER.L prev * prevVertical))%float in
      let a :=
        match rest' with
        | [] => ER.a prev
        | next :: _ =>
            if (ER.di next =? 0)%float then 0%float
            else Math_pow (ER.di curr / ER.di next)%float 2%float
        end in
      let curr := ER.with_a a (ER.with_h h curr) in
      curr :: head_and_area_from curr rest'
  end.

Definition head_and_area (updated : list ER.t) : list ER.t :=
  match updated with
  | [] => []
  | first :: rest => first :: head_and_area_from first rest
  end.

(** Reynolds number and velocity head. *)
Definition reynolds_and_velocity_head (c : ER.t) : ER.t :=
  let Re := if (ER.di c =? 0)%float then 0%float
            else ((ER.di c * ER.V c) / 0.000001)%float in
  ER.with_vp ((ER.V c * ER.V c) / (2 * 9.81))%float (ER.with_Re Re c).

(** Darcy friction factor (only for pipes). *)
Definition friction_factor (c : ER.t) : ER.t :=
  if String.eqb (ER.item c) "pipe" then
    if (0 <? ER.d c)%float && (0 <? ER.Re c)%float then
      let inner := (0.86 * Math_log (0.2 / (ER.d c * 3.7)
                                     + 5.74 / Math_pow (ER.Re c) 0.9))%float in
      ER.with_f (1 / Math_pow inner 2)%float c
    else ER.with_f 0%float c
  else c.

(** The discharge has area ratio 1. *)
Definition discharge_area (c : ER.t) : ER.t :=
  if String.eqb (ER.item c) "discharge" then ER.with_a 1%float c else c.

(** Reducer loss coefficient. *)
Definition reducer_loss (c : ER.t) : ER.t :=
  let a := ER.a c in
  if (1 <? a)%float then ER.with_kred (Math_pow (a - 1)%float 2%float) c
  else if (a =? 1)%float then ER.with_kred 0%float c
  else ER.with_kred (-0.513 * a + 0.51)%float c.

(** Tee loss coefficient. *)
Definition tee_loss (c : ER.t) : ER.t :=
  let T := 1%float in
  if negb (String.eqb (ER.item c) "") && starts_with_tee (ER.item c) then
    let d90 := ER.d90 c in
    let d := ER.d c in
    if (d =? 0)%float then c else
    let a := Math_pow (d90 / d)%float 2%float in
    if (ER.t90 c =? 1)%float then
      let q90 := ER.q90 c in
      let multiplier := if (0.35 <? a)%float then 0.55%float else 1%float in
      ER.with_ktee
        (multiplier *
         (1 + Math_pow (q90 / a) 2 - 2 * Math_pow (1 - q90) 2
          - (1.414 * Math_pow q90 2) / T))%float c
    else if (ER.t90 c =? 0.5)%float then
      if negb (d90 =? 0)%float then ER.with_ktee (0.75 - 0.35 / a)%float c
      else c
    else c
  else c.

(** Total loss coefficient and head loss. *)
Definition total_loss (c : ER.t) : ER.t :=
  let vp := ER.vp c in
  if String.eqb (ER.item c) "discharge" then
    let c := ER.with_ktotal 1%float (ER.with_a 1%float c) in
    ER.with_delta_H (ER.ktotal c * vp)%float c
  else
    let major := if (ER.di c =? 0)%float then 0%float
                 else (ER.f c * (ER.L c / ER.di c))%float in
    let minor := (ER.elbow c * 0.2 + ER.kred c + ER.ktee c)%float in
    let c := ER.with_ktotal (major + minor)%float c in
    ER.with_delta_H (ER.ktotal c * vp)%float c.

(** The final row reports the previous head loss when its own is zero. *)
Definition final_head_loss (updated : list ER.t) : list ER.t :=
  if decide (1 < length updated) then
    match updated !! (length updated - 1), updated !! (length updated - 2) with
    | Some last, Some prev =>
        if (ER.delta_H last =? 0)%float
        then <[length updated - 1 := ER.with_delta_H (ER.delta_H prev) last]> updated
        else updated
    | _, _ => updated
    end
  else updated.

(** Pressure loss accumulation: the loop from [i = 1], [prev] being
    [updated[i - 1]] as the loop left it. *)
Fixpoint pressure_from (prev : ER.t) (rest : list ER.t) : list ER.t :=
  match rest with
  | [] => []
  | curr :: rest' =>
      let curr := ER.with_delta_P
        (ER.delta_P prev + ER.delta_H prev + (ER.h prev - ER.h curr)
         + (ER.vp prev - ER.vp curr))%float curr in
      curr :: pressure_from curr rest'
  end.

Definition pressure (updated : list ER.t) : list ER.t :=
  match updated with
  | [] => []
  | first :: rest => first :: pressure_from first rest
  end.

(** The per-row passes between the two sequential loops, in source order. *)
Definition local_losses (c : ER.t) : ER.t :=
  total_loss (tee_loss (reducer_loss (discharge_area
    (friction_factor (reynolds_and_velocity_head c))))).

(** The callback of the outer [map] of [normalize]. *)
Definition normalize_path (compSet : list ER.t) : list ER.t :=
  pressure (final_head_loss (local_losses <$> head_and_area compSet)).

Definition normalize (compSets : list (list ER.t)) : list (list ER.t) :=
  normalize_path <$> compSets.

End evaluator.

(** ** The constructor and its caller *)

(** [this.canonicalComponents] as the constructor leaves it: the input with
    the vertical flag of every pipe computed against the input itself. *)
Definition canonical (components : list EC.t) : list EC.t :=
  (fun comp =>
     if bool_decide (EC.component comp = edge) && EC.type_is "pipe" comp
     then EC.with_vertical (Some (computeVerticalFlag comp components)) comp
     else comp) <$> components.

(** [new Calculations({ components }).toRows()] *)
Definition Calculations (Math_log : float -> float)
    (Math_pow : float -> float -> float) (components : list EC.t)
  : list (list ER.t) :=
  let canonicalComponents := canonical components in
  let a := canonicalComponents in
  let b := organize a in
  let c := preNormalize canonicalComponents b in
  normalize Math_log Math_pow c.

(** [computeRowsFromComponents] of src/unnamed/part_001. No statement of
    the [try] block throws, so the [catch] branch is never taken. *)
Definition computeRowsFromComponents (Math_log : float -> float)
    (Math_pow : float -> float -> float) (components : list EC.t)
  : list (list ER.t) :=
  if decide (length components = 0%nat) then [] else
  let withDrawIndex :=
    imap (fun idx comp =>
            EC.with_draw_index
              (Some (EC.draw_index comp ?? (Z.of_nat idx + 1)%Z)) comp)
         components in
  Calculations Math_log Math_pow withDrawIndex.

(** ** The object store

    To say what a [Calculations] invocation does to the caller's objects,
    the component objects live in a store and are named by their address;
    an array holds addresses. The spread [{ ...c }] allocates a new object,
    an assignment [c.f = v] overwrites the object at the address of [c].
    The arrays the class changes in place ([splice], [reverse], [sort],
    [push]) are all created by the class ([map], [filter], [[...arr]],
    literals), so an array is a value here and the caller's array is only
    read. *)

Module Heap.

Abbreviation addr := nat (only parsing).
Abbreviation heap := (list EC.t) (only parsing).

(** A computation on the store; [None] is the dereference of an address
    outside the store. *)
Definition M (A : Type) : Type := heap -> option (A * heap).

Definition ret {A} (a : A) : M A := fun h => Some (a, h).

Definition bind {A B} (m : M A) (f : A -> M B) : M B :=
  fun h => match m h with Some (a, h') => f a h' | None => None end.

Notation "'let!' x ':=' m 'in' k" := (bind m (fun x => k))
  (at level 10, x name, m at level 100, k at level 200).

Definition alloc (o : EC.t) : M addr := fun h => Some (length h, h ++ [o]).

Definition read (a : addr) : M EC.t :=
  fun h => match h !! a with Some o => Some (o, h) | None => None end.

Definition write (a : addr) (f : EC.t -> EC.t) : M unit :=
  fun h => match h !! a with
           | Some o => Some (tt, <[a := f o]> h)
           | None => None
           end.

Fixpoint mapM {A B} (f : A -> M B) (l : list A) : M (list B) :=
  match l with
  | [] => ret []
  | x :: l' => let! y := f x in let! ys := mapM f l' in ret (y :: ys)
  end.

Fixpoint foldM {S A} (f : S -> A -> M S) (s : S) (l : list A) : M S :=
  match l with
  | [] => ret s
  | x :: l' => let! s' := f s x in foldM f s' l'
  end.

(** [{ ...c }] *)
Definition copy (a : addr) : M addr := let! o := read a in alloc o.

(** Step 1 of [fillTee] on the object at [a]:
    [comp.tee_ref = nextTeeRef++] and [comp.type = "tee_main"]. *)
Definition normalize_tee (nextTeeRef : Z) (a : addr) : M Z :=
  let! comp := read a in
  if EC.type_is "tee" comp then
    let! nextTeeRef :=
      match EC.tee_ref comp with
      | None =>
          let! _ := write a (EC.with_tee_ref (Some nextTeeRef)) in
          ret (nextTeeRef + 1)%Z
      | Some ref => ret (Z.max nextTeeRef (ref + 1))
      end in
    let! _ := write a (EC.with_type (Some "tee_main")) in
    ret nextTeeRef
  else ret nextTeeRef.

(** Step 2: [outlet.tee_ref = tee.tee_ref]. *)
Definition pair_outlet (result : list addr) (p : nat * nat) : M unit :=
  let '(teeIdx, outletIdx) := p in
  match result !! teeIdx, result !! outletIdx with
  | Some tee, Some outlet =>
      let! t := read tee in
      let! o := read outlet in
      match EC.tee_ref o, EC.tee_ref t with
      | None, Some ref => write outlet (EC.with_tee_ref (Some ref))
      | _, _ => ret tt
      end
  | _, _ => ret tt
  end.

(** Step 3: the new [elbow90] object is spliced into [result]. *)
Definition insert_elbow90 (st : nat * list addr) (teeIdx : nat)
  : M (nat * list addr) :=
  let '(indexOffset, result) := st in
  let idx := (teeIdx + indexOffset)%nat in
  let! objects := mapM read result in
  match elbow90_at objects idx with
  | Some elbow90 =>
      let! a := alloc elbow90 in
      ret (S indexOffset, splice_in (idx + 1) a result)
  | None => ret st
  end.

(** Step 5: the new [teeSide] and [elbow45] objects are spliced into
    [result]. *)
Definition insert_tee_side (result : list addr) (outletIndex : nat)
  : M (list addr) :=
  let! objects := mapM read result in
  match tee_side_at objects outletIndex with
  | Some (teeSide, elbow45) =>
      let! teeSide := alloc teeSide in
      let! elbow45 := alloc elbow45 in
      let teeSideIndex := (outletIndex + 1)%nat in
      ret (splice_in (teeSideIndex + 1) elbow45
             (splice_in teeSideIndex teeSide result))
  | None => ret result
  end.

Definition fillTee (components : list addr) : M (list addr) :=
  let! result := mapM copy components in
  let! _ := foldM normalize_tee 0%Z result in
  let! objects := mapM read result in
  let teeIndexes := indexes_of (EC.type_is "tee_main") objects in
  let outletIndexes := indexes_of (EC.type_is "outlet") objects in
  let! _ := foldM (fun _ p => pair_outlet result p) tt
                  (zip teeIndexes outletIndexes) in
  let! st := foldM insert_elbow90 (0%nat, result) teeIndexes in
  let result := st.2 in
  let! objects := mapM read result in
  let outletIndexesWithTeeRef :=
    reverse (indexes_of (fun c => EC.type_is "outlet" c
                                  && bool_decide (is_Some (EC.tee_ref c)))
                        objects) in
  foldM insert_tee_side result outletIndexesWithTeeRef.

(** [arr.map((comp) => { const updated = { ...comp }; ...; return updated })]
    for a pass [pass] that only assigns fields of [updated]: the objects of
    [arr] are read and the updated copies are new objects. *)
Definition map_copies (pass : list EC.t -> list EC.t) (arr : list addr)
  : M (list addr) :=
  let! objects := mapM read arr in
  mapM alloc (pass objects).

(** The constructor, down to [this.filledComponents]: the three copies of
    the input, the tee fill, and the capacity and diameter fills. It
    returns the objects of [this.canonicalComponents] and of
    [this.filledComponents] as they are when the constructor is done. *)
Definition constructor (input : list addr) : M (list EC.t * list EC.t) :=
  let! canonicalComponents := mapM copy input in
  let! objects := mapM read canonicalComponents in
  let! canonicalComponents :=
    mapM (fun a =>
            let! comp := read a in
            if bool_decide (EC.component comp = edge) && EC.type_is "pipe" comp
            then alloc (EC.with_vertical
                          (Some (computeVerticalFlag comp objects)) comp)
            else ret a) canonicalComponents in
  let! components := mapM copy canonicalComponents in
  let! withTees := fillTee components in
  let! withCapacity := map_copies fillCapacity withTees in
  let! filled := map_copies fillDiameter withCapacity in
  let! canonicalObjects := mapM read canonicalComponents in
  let! filledObjects := mapM read filled in
  ret (canonicalObjects, filledObjects).

(** [new Calculations({ components: input }).toRows()]: from
    [this.filledComponents] on, the class reads component objects and
    builds paths, reducer nodes and rows. *)
Definition Calculations (Math_log : float -> float)
    (Math_pow : float -> float -> float) (input : list addr)
  : M (list (list ER.t)) :=
  let! built := constructor input in
  let '(canonicalObjects, filledObjects) := built in
  let b := insertReducersForDiameterChanges (splitByOutlet filledObjects) in
  let c := preNormalize canonicalObjects b in
  ret (normalize Math_log Math_pow c).

End Heap.

(** ** Sample networks *)

Module Sample.

(** A component as the canvas stores it: its [id] is its position in the
    drawing, and its draw index the position counted from 1. *)
Definition component (kind : component_kind) (id : Z) (type : string) : EC.t :=
  {| EC.component := kind; EC.id := id; EC.type := Some type;
     EC.fromId := None; EC.toId := None; EC.x := None; EC.y := None;
     EC.diameter := None; EC.length := None; EC.capacity := None;
     EC.tee_ref := None; EC.draw_index := Some (id + 1)%Z; EC.vertical := None |}.

(** A trunk that branches at one tee into two outlets. *)
Definition branch : list EC.t :=
  [ component node 0 "discharge";
    EC.with_diameter (Some 100%float) (component edge 1 "pipe");
    component node 2 "tee";
    EC.with_diameter (Some 80%float) (component edge 3 "pipe");
    EC.with_capacity (Some 3%float) (component node 4 "outlet");
    component edge 5 "pipe";
    EC.with_capacity (Some 2%float) (component node 6 "outlet") ].

(** An outlet drawn before the tee. *)
Definition tee_after_outlet : list EC.t :=
  [ component node 0 "discharge";
    component edge 1 "pipe";
    EC.with_capacity (Some 1%float) (component node 2 "outlet");
    component node 3 "tee";
    component edge 4 "pipe";
    EC.with_capacity (Some 3%float) (component node 5 "outlet") ].

(** A run with a bend where the diameter changes. *)
Definition bend : list EC.t :=
  [ component node 0 "discharge";
    EC.with_diameter (Some 100%float) (component edge 1 "pipe");
    component node 2 "elbow90";
    EC.with_diameter (Some 80%float) (component edge 3 "pipe");
    EC.with_capacity (Some 3%float) (component node 4 "outlet") ].

(** The reducer the organizer splices into [bend], and the one path it makes
    of [bend]. *)
Definition bend_reducer : EC.t :=
  {| EC.component := node; EC.id := 5; EC.type := Some "reducer";
     EC.fromId := None; EC.toId := None; EC.x := None; EC.y := None;
     EC.diameter := Some 100%float; EC.length := None;
     EC.capacity := Some 3%float;
     EC.tee_ref := None; EC.draw_index := None; EC.vertical := None |}.

Definition bend_path : list EC.t :=
  let filled d c := EC.with_diameter (Some d) (EC.with_capacity (Some 3%float) c) in
  [ filled 100%float (component node 0 "discharge");
    filled 100%float (EC.with_vertical (Some false) (component edge 1 "pipe"));
    filled 100%float (component node 2 "elbow90");
    bend_reducer;
    filled 80%float (EC.with_vertical (Some false) (component edge 3 "pipe"));
    filled 80%float (component node 4 "outlet") ].


(** A single pipe with no diameter set. *)
Definition bare_pipe : list EC.t := [ component edge 0 "pipe" ].

End Sample.

(** ** The specification's wording of some properties *)

(** A row that is not the discharge and whose area ratio is 0. *)
Definition contraction_row (c : ER.t) : Prop :=
  String.eqb (ER.item c) "discharge" = false /\ ER.a c = 0%float.

(** The pressure recurrence the specification states for one evaluated
    path. *)
Definition pressure_recurrence (rows : list ER.t) : Prop :=
  (forall first, rows !! 0 = Some first -> ER.delta_P first = 0%float) /\
  (forall i prev curr, rows !! i = Some prev -> rows !! S i = Some curr ->
     ER.delta_P curr
     = (ER.delta_P prev + ER.delta_H prev + (ER.h prev - ER.h curr)
        + (ER.vp prev - ER.vp curr))%float).

(** The fields the per-row passes of [normalize] never assign: what
    [preNormalize] measured on the component, the elevation head and the
    pressure. *)
Definition local_frame (r r' : ER.t) : Prop :=
  ER.index r' = ER.index r /\ ER.item r' = ER.item r /\ ER.Q r' = ER.Q r /\
  ER.d r' = ER.d r /\ ER.L r' = ER.L r /\ ER.vertical r' = ER.vertical r /\
  ER.elbow r' = ER.elbow r /\ ER.reducer r' = ER.reducer r /\
  ER.t90 r' = ER.t90 r /\ ER.d90 r' = ER.d90 r /\ ER.q90 r' = ER.q90 r /\
  ER.di r' = ER.di r /\ ER.V r' = ER.V r /\ ER.h r' = ER.h r /\
  ER.delta_P r' = ER.delta_P r.

(** Every output row is the input row at its position, with the elevation
    head and area ratio of the first loop, the per-row passes applied, and
    the head loss and pressure of the last two steps. *)
Definition row_evaluated (Math_log : float -> float)
    (Math_pow : float -> float -> float) (r r' : ER.t) : Prop :=
  exists h a dH dP,
    r' = ER.with_delta_P dP (ER.with_delta_H dH
           (local_losses Math_log Math_pow (ER.with_a a (ER.with_h h r)))).

(** What holds of a zero-diameter row from [preNormalize] on, and what the
    Reynolds pass adds to it. *)
Definition zero_row (c : ER.t) : Prop :=
  (ER.d c =? 0)%float = true /\ (ER.di c =? 0)%float = true /\
  ER.V c = 0%float /\ ER.f c = 0%float /\ ER.ktee c = 0%float.

Definition zero_flow_row (c : ER.t) : Prop :=
  zero_row c /\ ER.Re c = 0%float.




(** What a computation that respects the caller's store [h0] does from a
    store [h] that extends [h0]: it ends, in a store that still extends
    [h0] and is at least as long as [h], with a value that satisfies [Q] at
    the final length. Addresses from [length h0] on are the class's own. *)
Definition respects {A} (h0 : Heap.heap) (m : Heap.M A) (h : Heap.heap)
    (Q : nat -> A -> Prop) : Prop :=
  exists a h', m h = Some (a, h') /\ h0 `prefix_of` h' /\
               (length h <= length h')%nat /\ Q (length h') a.

(** An address of the class's own objects, in a store of length [n]. *)
Definition own (h0 : Heap.heap) (n : nat) (a : Heap.addr) : Prop :=
  (length h0 <= a < n)%nat.

(** An assertion that stays true as the store grows. *)
Definition monotone {A} (Q : nat -> A -> Prop) : Prop :=
  forall n n' a, (n <= n')%nat -> Q n a -> Q n' a.

(** * Part II: properties of the embedded code *)

Lemma EC_type_is_true s c : EC.type_is s c = true <-> EC.type c = Some s.
Proof.
  unfold EC.type_is. destruct (EC.type c) as [ty|]; [|split; discriminate].
  rewrite String.eqb_eq. split; congruence.
Qed.

Lemma EC_is_with_diameter s v c : EC.type_is s (EC.with_diameter v c) = EC.type_is s c.
Proof. reflexivity. Qed.

Lemma EC_is_with_capacity s v c : EC.type_is s (EC.with_capacity v c) = EC.type_is s c.
Proof. reflexivity. Qed.

(** ** Diameter fill *)

Section fillDiameter_facts.

(** Walking a stamped component again yields the same running value and the
    same component, provided the walk arrives with the same running value or
    the component is a pipe (which then supplies it). *)
Lemma fillDiameter_step_again cur cur' c :
  EC.type_is "pipe" c = true \/ cur' = cur ->
  fillDiameter_step cur' (snd (fillDiameter_step cur c)) = fillDiameter_step cur c.
Proof.
  unfold fillDiameter_step, EC.type_is. cbn.
  destruct (EC.diameter c) as [d|], (EC.type c) as [ty|]; cbn;
    try destruct (String.eqb ty "pipe"); intros [H| ->];
    try discriminate H; reflexivity.
Qed.

Lemma fillDiameter_step_not_pipe cur c :
  EC.type_is "pipe" c = false -> fst (fillDiameter_step cur c) = cur.
Proof.
  unfold fillDiameter_step. cbn. intros ->. by destruct (EC.diameter c).
Qed.

Lemma fillDiameter_walk_again cur cur' l :
  from_option (EC.type_is "pipe") false (head l) = true \/ cur' = cur ->
  map_st fillDiameter_step cur' (map_st fillDiameter_step cur l)
  = map_st fillDiameter_step cur l.
Proof.
  revert cur cur'. induction l as [|c l IH]; intros cur cur' H; [done|].
  cbn [map_st].
  assert (Hc : EC.type_is "pipe" c = true \/ cur' = cur).
  { destruct H as [H|H]; [by left|by right]. }
  pose proof (fillDiameter_step_again cur cur' c Hc) as Hs.
  destruct (fillDiameter_step cur c) as [n c'] eqn:E. cbn [snd] in Hs.
  cbn [map_st]. rewrite Hs. f_equal. apply IH. by right.
Qed.

End fillDiameter_facts.

(** C9. Idempotence of diameter fill: applying [fillDiameter] to its own
    output changes nothing, component for component. *)
Theorem fillDiameter_idempotent (components : list EC.t) :
  fillDiameter (fillDiameter components) = fillDiameter components.
Proof.
  unfold fillDiameter at 1.
  set (cur' := (fillDiameter components !! 1%nat ≫= EC.diameter) ?? 0%float).
  assert (H : from_option (EC.type_is "pipe") false (head components) = true
              \/ cur' = (components !! 1%nat ≫= EC.diameter) ?? 0%float).
  { destruct components as [|c [|c1 l]]; [by right|by right|].
    destruct (EC.type_is "pipe" c) eqn:Hp; [by left|right].
    subst cur'. unfold fillDiameter. cbn [lookup list_lookup mbind option_bind].
    cbn [map_st]. pose proof (fillDiameter_step_not_pipe
      (EC.diameter c1 ?? 0%float) c Hp) as Hn.
    destruct (fillDiameter_step _ c) as [n c']. cbn [fst] in Hn. subst n.
    cbn [map_st]. unfold fillDiameter_step.
    destruct (EC.diameter c1) as [d1|]; cbn; [|done].
    by destruct (EC.type_is "pipe" c1). }
  unfold fillDiameter. by apply fillDiameter_walk_again.
Qed.

(** ** Capacity fill *)

Section map_st_facts.
Context {S A B : Type} (f : S -> A -> S * B).

Lemma map_st_app s l1 l2 :
  map_st f s (l1 ++ l2) = map_st f s l1 ++ map_st f (map_st_final f s l1) l2.
Proof.
  revert s. induction l1 as [|a l1 IH]; intros s; [done|].
  cbn. destruct (f s a) as [s' b]. cbn. by rewrite IH.
Qed.

Lemma map_st_final_app s l1 l2 :
  map_st_final f s (l1 ++ l2) = map_st_final f (map_st_final f s l1) l2.
Proof. revert s. induction l1 as [|a l1 IH]; intros s; [done|]. cbn. apply IH. Qed.

Lemma map_st_length s l : length (map_st f s l) = length l.
Proof.
  revert s. induction l as [|a l IH]; intros s; [done|].
  cbn. destruct (f s a). cbn. by rewrite IH.
Qed.

End map_st_facts.

Section fillCapacity_facts.

Lemma fillCapacity_cons c l :
  fillCapacity (c :: l) = snd (fillCapacity_step (fillCapacity_state l) c) :: fillCapacity l.
Proof.
  unfold fillCapacity, fillCapacity_state. cbn zeta.
  rewrite reverse_cons, map_st_app, reverse_app. cbn [map_st].
  destruct (fillCapacity_step _ c). reflexivity.
Qed.

Lemma fillCapacity_state_cons c l :
  fillCapacity_state (c :: l) = fst (fillCapacity_step (fillCapacity_state l) c).
Proof.
  unfold fillCapacity_state. by rewrite reverse_cons, map_st_final_app.
Qed.

Lemma fillCapacity_length l : length (fillCapacity l) = length l.
Proof.
  unfold fillCapacity. by rewrite length_reverse, map_st_length, length_reverse.
Qed.

(** [fillCapacity] only rewrites the capacity. *)
Lemma fillCapacity_step_shape st c :
  exists q, snd (fillCapacity_step st c) = EC.with_capacity (Some q) c.
Proof.
  destruct st as [cur side]. unfold fillCapacity_step.
  destruct (EC.type_is "outlet" c); [by eexists|].
  destruct (EC.tee_ref c); [|by eexists].
  destruct (EC.type_is "tee_side" c); [by eexists|].
  destruct (EC.type_is "tee_main" c); by eexists.
Qed.

(** What [sideFlowByRef] holds for [ref] after the walk has passed
    [downstream]. *)
Lemma fillCapacity_recorded ref downstream :
  snd (fillCapacity_state downstream) !! ref
  = List.find (is_tee_side_of ref) (fillCapacity downstream) ≫= EC.capacity.
Proof.
  induction downstream as [|c l IH]; [done|].
  rewrite fillCapacity_cons, fillCapacity_state_cons.
  destruct (fillCapacity_state l) as [cur side]. cbn [snd] in IH.
  unfold fillCapacity_step, is_tee_side_of. cbn [List.find].
  destruct (EC.type_is "outlet" c) eqn:Ho; cbn [fst snd].
  { rewrite EC_is_with_capacity.
    assert (EC.type_is "tee_side" c = false) as ->; [|done].
    apply EC_type_is_true in Ho. unfold EC.type_is. by rewrite Ho. }
  destruct (EC.tee_ref c) as [r|] eqn:Hr; cbn [fst snd].
  2:{ rewrite EC_is_with_capacity. cbn [EC.tee_ref EC.with_capacity].
      rewrite Hr, bool_decide_eq_false_2, andb_false_r; done. }
  destruct (EC.type_is "tee_side" c) eqn:Hs; cbn [fst snd].
  - rewrite EC_is_with_capacity, Hs. cbn [EC.tee_ref EC.with_capacity andb].
    rewrite Hr. case_bool_decide as Hd.
    + simplify_eq. by rewrite lookup_insert_eq.
    + rewrite lookup_insert_ne by congruence. done.
  - destruct (EC.type_is "tee_main" c); cbn [fst snd];
      by rewrite EC_is_with_capacity, Hs.
Qed.

End fillCapacity_facts.

(** The capacity a component receives when it is not an outlet: the running
    flow [current] the walk arrives with. *)
Lemma fillCapacity_step_carry cur side c :
  EC.type_is "outlet" c = false ->
  EC.capacity (snd (fillCapacity_step (cur, side) c)) = Some cur.
Proof.
  intros Ho. unfold fillCapacity_step. rewrite Ho.
  destruct (EC.tee_ref c); [|done].
  destruct (EC.type_is "tee_side" c); [done|].
  by destruct (EC.type_is "tee_main" c).
Qed.

(** At a [tee_main] with a reference the running flow grows by the recorded
    side flow. *)
Lemma fillCapacity_step_tee_main cur side c ref :
  EC.type c = Some "tee_main" -> EC.tee_ref c = Some ref ->
  fst (fillCapacity_step (cur, side) c)
  = ((cur + (side !! ref) ?? 0)%float, side).
Proof.
  intros Ht Hr. unfold fillCapacity_step, EC.type_is. by rewrite Ht, Hr.
Qed.

(** C1 (as amended). Flow conservation of the capacity-fill pass: at a
    [tee_main] with branch reference [ref] whose upstream neighbour in draw
    order is not an outlet, the capacity assigned to that neighbour is the
    capacity assigned to the [tee_main] (main-branch flow) plus the side flow
    recorded for [ref], which is the capacity assigned to the nearest
    [tee_side] with reference [ref] downstream of the tee (0 when there is
    none). *)
Theorem fillCapacity_flow_conservation
    (components : list EC.t) (i : nat) (up tee : EC.t) (ref : Z) :
  components !! i = Some up ->
  components !! S i = Some tee ->
  EC.type tee = Some "tee_main" ->
  EC.tee_ref tee = Some ref ->
  EC.type_is "outlet" up = false ->
  exists main : float,
    fillCapacity components !! S i ≫= EC.capacity = Some main /\
    fillCapacity components !! i ≫= EC.capacity
    = Some (main + side_flow ref (drop (S (S i)) (fillCapacity components)))%float.
Proof.
  revert i. induction components as [|c l IH]; intros i Hup Htee Ht Hr Ho; [done|].
  destruct i as [|i].
  - destruct l as [|t post]; [done|].
    cbn [lookup list_lookup] in Hup, Htee. simplify_eq.
    rewrite !fillCapacity_cons, fillCapacity_state_cons. cbn [lookup list_lookup drop].
    unfold side_flow. rewrite drop_0, <- fillCapacity_recorded.
    destruct (fillCapacity_state post) as [cur side]. cbn [snd mbind option_bind].
    exists cur. split.
    + apply fillCapacity_step_carry. unfold EC.type_is. by rewrite Ht.
    + rewrite (fillCapacity_step_tee_main _ _ _ _ Ht Hr).
      by apply fillCapacity_step_carry.
  - rewrite fillCapacity_cons. cbn [lookup list_lookup drop].
    apply IH; done.
Qed.

(** ** Reducer insertion *)

Lemma EC_type_is_false s c : EC.type_is s c = false <-> EC.type c <> Some s.
Proof. rewrite <- EC_type_is_true. by destruct (EC.type_is s c). Qed.

(** The code's [currD] and [nextD] are the specification's resolved
    diameters, and the capacity it gives a reducer is the inherited one. *)
Lemma resolved_diameter_beside c neighbour :
  resolved_diameter c neighbour = diameter_beside c neighbour.
Proof.
  unfold resolved_diameter, diameter_beside, nullish.
  by destruct (EC.diameter c), (EC.diameter neighbour).
Qed.

Lemma make_reducer_capacity id curr next :
  EC.capacity (make_reducer id curr next) = Some (inherited_capacity curr next).
Proof.
  unfold inherited_capacity, nullish. cbn.
  by destruct (EC.capacity next), (EC.capacity curr).
Qed.

Lemma reducer_needed_spec curr next :
  reducer_needed curr next = true <-> diameter_change curr next.
Proof.
  unfold reducer_needed, diameter_change. cbn zeta.
  rewrite !resolved_diameter_beside.
  rewrite !andb_true_iff, !negb_true_iff, bool_decide_eq_true,
    EC_type_is_false, EC_type_is_true. tauto.
Qed.

Lemma make_reducer_synthetic id curr next :
  synthetic_reducer_for curr next (make_reducer id curr next).
Proof.
  unfold synthetic_reducer_for. rewrite make_reducer_capacity.
  cbn [EC.component EC.type EC.diameter make_reducer].
  rewrite resolved_diameter_beside. repeat split.
  intros d Hd. unfold diameter_beside. by rewrite Hd.
Qed.

Lemma insertReducers_path_cons2 maxId c n rest :
  insertReducers_path maxId (c :: n :: rest)
  = if reducer_needed c n then
      let '(m, newPath) := insertReducers_path (maxId + 1) (n :: rest) in
      (m, c :: make_reducer (maxId + 1) c n :: newPath)
    else
      let '(m, newPath) := insertReducers_path maxId (n :: rest) in
      (m, c :: newPath).
Proof. reflexivity. Qed.

Lemma insertReducers_path_spliced maxId path :
  reducers_spliced path (snd (insertReducers_path maxId path)).
Proof.
  revert maxId. induction path as [|c [|n rest] IH]; intros maxId.
  - constructor.
  - constructor.
  - rewrite insertReducers_path_cons2.
    destruct (reducer_needed c n) eqn:Hneed.
    + specialize (IH (maxId + 1)%Z).
      destruct (insertReducers_path (maxId + 1) (n :: rest)) as [m out].
      apply spliced_insert; [by apply reducer_needed_spec| |done].
      apply make_reducer_synthetic.
    + specialize (IH maxId).
      destruct (insertReducers_path maxId (n :: rest)) as [m out].
      apply spliced_keep; [|done].
      rewrite <- reducer_needed_spec. by rewrite Hneed.
Qed.

Lemma map_st_Forall2 {S A B} (f : S -> A -> S * B) (R : A -> B -> Prop) s l :
  (forall s a, R a (snd (f s a))) -> Forall2 R l (map_st f s l).
Proof.
  intros HR. revert s. induction l as [|a l IH]; intros s; [constructor|].
  cbn. specialize (HR s a). destruct (f s a) as [s' b]. by constructor.
Qed.

(** C4. Reducer insertion exactness: in every path, a synthetic reducer with
    the upstream node's diameter (the node's own [diameter] field when it
    has one) and the capacity of the following pipe (else of the node, else
    0) is spliced exactly between each non-reducer node and the pipe after
    it whose resolved diameter differs (both positive); nothing else is
    inserted, removed or reordered. The conditions and the reducer's fields
    are stated on the components' own fields, by [diameter_change] and
    [synthetic_reducer_for]. *)
Theorem insertReducers_exact (paths : list (list EC.t)) :
  Forall2 reducers_spliced paths (insertReducersForDiameterChanges paths).
Proof.
  unfold insertReducersForDiameterChanges.
  destruct paths as [|p ps]; [constructor|].
  apply map_st_Forall2. intros s a. apply insertReducers_path_spliced.
Qed.

(** ** Evaluator *)

(** IEEE equality with zero holds of the two zeros only. *)
Lemma float_eqb_zero (v : float) :
  (v =? 0)%float = true -> v = 0%float \/ v = (-0)%float.
Proof.
  intros H. rewrite FloatAxioms.eqb_spec in H.
  rewrite <- (SF2Prim_Prim2SF v).
  destruct (Prim2SF v) as [[|]|[|]| |[|] m e]; cbn in H; try discriminate H.
  - by right.
  - by left.
Qed.

Lemma float_neq (u v : float) : (u =? v)%float <> (v =? v)%float -> u <> v.
Proof. intros H ->. by apply H. Qed.

Section evaluator_facts.
Variable Math_log : float -> float.
Variable Math_pow : float -> float -> float.
Variable canonicalComponents : list EC.t.

Local Abbreviation friction_factor' := (friction_factor Math_log Math_pow).
Local Abbreviation reducer_loss' := (reducer_loss Math_pow).
Local Abbreviation tee_loss' := (tee_loss Math_pow).
Local Abbreviation local_losses' := (local_losses Math_log Math_pow).
Local Abbreviation normalize_path' := (normalize_path Math_log Math_pow).
Local Abbreviation head_and_area' := (head_and_area Math_pow).
Local Abbreviation head_and_area_from' := (head_and_area_from Math_pow).

(** A pass is a nest of conditionals around field updates: a field it never
    assigns is read off each branch. *)
Ltac by_branches :=
  intros;
  unfold friction_factor, reducer_loss, tee_loss,
    reynolds_and_velocity_head, discharge_area, total_loss;
  cbv zeta; repeat case_match; try done.

Lemma local_frame_refl r : local_frame r r.
Proof. by repeat split. Qed.

Lemma local_frame_trans r1 r2 r3 :
  local_frame r1 r2 -> local_frame r2 r3 -> local_frame r1 r3.
Proof. unfold local_frame. intros H1 H2. repeat split; intuition congruence. Qed.

Lemma reynolds_frame c : local_frame c (reynolds_and_velocity_head c).
Proof. by repeat split. Qed.

Lemma friction_frame c : local_frame c (friction_factor' c).
Proof. by_branches; by repeat split. Qed.

Lemma discharge_area_frame c : local_frame c (discharge_area c).
Proof. by_branches; by repeat split. Qed.

Lemma reducer_loss_frame c : local_frame c (reducer_loss' c).
Proof. by_branches; by repeat split. Qed.

Lemma tee_loss_frame c : local_frame c (tee_loss' c).
Proof. by_branches; by repeat split. Qed.

Lemma total_loss_frame c : local_frame c (total_loss c).
Proof. by_branches; by repeat split. Qed.

Lemma local_losses_frame c : local_frame c (local_losses' c).
Proof.
  unfold local_losses.
  eapply local_frame_trans; [|apply total_loss_frame].
  eapply local_frame_trans; [|apply tee_loss_frame].
  eapply local_frame_trans; [|apply reducer_loss_frame].
  eapply local_frame_trans; [|apply discharge_area_frame].
  eapply local_frame_trans; [|apply friction_frame].
  apply reynolds_frame.
Qed.

(** The fields the per-row passes leave alone. *)
Lemma local_losses_index c : ER.index (local_losses' c) = ER.index c.
Proof. apply local_losses_frame. Qed.

Lemma local_losses_item c : ER.item (local_losses' c) = ER.item c.
Proof. apply local_losses_frame. Qed.

Lemma local_losses_d c : ER.d (local_losses' c) = ER.d c.
Proof. apply local_losses_frame. Qed.

Lemma local_losses_V c : ER.V (local_losses' c) = ER.V c.
Proof. apply local_losses_frame. Qed.

Lemma local_losses_h c : ER.h (local_losses' c) = ER.h c.
Proof. apply local_losses_frame. Qed.

Lemma local_losses_delta_P c : ER.delta_P (local_losses' c) = ER.delta_P c.
Proof. apply local_losses_frame. Qed.

(** The three list passes, position by position. *)
Lemma head_and_area_from_shape prev rest :
  Forall2 (fun r r' => exists h a, r' = ER.with_a a (ER.with_h h r))
          rest (head_and_area_from' prev rest).
Proof.
  revert prev. induction rest as [|curr rest IH]; intros prev; [constructor|].
  cbn [head_and_area_from]. constructor; [by eexists _, _|apply IH].
Qed.

Lemma head_and_area_shape rows :
  Forall2 (fun r r' => exists h a, r' = ER.with_a a (ER.with_h h r))
          rows (head_and_area' rows).
Proof.
  destruct rows as [|first rest]; [constructor|].
  constructor; [|apply head_and_area_from_shape].
  exists (ER.h first), (ER.a first). by destruct first.
Qed.

Lemma final_head_loss_shape rows :
  Forall2 (fun r r' => exists dH, r' = ER.with_delta_H dH r)
          rows (final_head_loss rows).
Proof.
  assert (Hrefl : Forall2 (fun r r' => exists dH, r' = ER.with_delta_H dH r) rows rows).
  { apply Forall2_same_length_lookup_2; [done|]. intros i r r' Hr Hr'.
    rewrite Hr in Hr'. injection Hr' as <-. exists (ER.delta_H r). by destruct r. }
  unfold final_head_loss. case_decide; [|done].
  destruct (rows !! (length rows - 1)) as [last|] eqn:Hlast; [|done].
  destruct (rows !! (length rows - 2)) as [prev|]; [|done].
  destruct (ER.delta_H last =? 0)%float; [|done].
  apply Forall2_same_length_lookup_2; [by rewrite length_insert|].
  intros i r r' Hr Hr'.
  destruct (decide (i = length rows - 1)) as [->|Hne].
  - rewrite list_lookup_insert_eq in Hr' by lia. simplify_eq. by eexists.
  - rewrite list_lookup_insert_ne in Hr' by done.
    rewrite Hr in Hr'. injection Hr' as <-. exists (ER.delta_H r). by destruct r.
Qed.

Lemma pressure_from_shape prev rest :
  Forall2 (fun r r' => exists dP, r' = ER.with_delta_P dP r)
          rest (pressure_from prev rest).
Proof.
  revert prev. induction rest as [|curr rest IH]; intros prev; [constructor|].
  cbn [pressure_from]. constructor; [by eexists|apply IH].
Qed.

Lemma pressure_shape rows :
  Forall2 (fun r r' => exists dP, r' = ER.with_delta_P dP r) rows (pressure rows).
Proof.
  destruct rows as [|first rest]; [constructor|].
  constructor; [|apply pressure_from_shape].
  exists (ER.delta_P first). by destruct first.
Qed.

Lemma normalize_path_shape rows :
  Forall2 (row_evaluated Math_log Math_pow) rows (normalize_path' rows).
Proof.
  unfold normalize_path.
  pose proof (head_and_area_shape rows) as H1.
  pose proof (final_head_loss_shape (local_losses' <$> head_and_area' rows)) as H2.
  pose proof (pressure_shape (final_head_loss (local_losses' <$> head_and_area' rows))) as H3.
  apply Forall2_fmap_l in H2.
  assert (H23 : Forall2 (fun y r' => exists dH dP,
            r' = ER.with_delta_P dP (ER.with_delta_H dH (local_losses' y)))
            (head_and_area' rows)
            (pressure (final_head_loss (local_losses' <$> head_and_area' rows)))).
  { eapply Forall2_trans; [|exact H2|exact H3].
    intros x y z [dH Hy] [dP ->]. cbn in Hy. subst y. by exists dH, dP. }
  eapply Forall2_trans; [|exact H1|exact H23].
  intros r y r' (h & a & ->) (dH & dP & ->). by exists h, a, dH, dP.
Qed.

Lemma normalize_path_length rows : length (normalize_path' rows) = length rows.
Proof. symmetry. eapply Forall2_length, normalize_path_shape. Qed.

End evaluator_facts.

(** Reading a field through the update of another one. *)
Lemma ER_delta_P_with_delta_H v r : ER.delta_P (ER.with_delta_H v r) = ER.delta_P r.
Proof. reflexivity. Qed.

Lemma ER_delta_P_with_a v r : ER.delta_P (ER.with_a v r) = ER.delta_P r.
Proof. reflexivity. Qed.

Lemma ER_delta_P_with_h v r : ER.delta_P (ER.with_h v r) = ER.delta_P r.
Proof. reflexivity. Qed.

Section pressure_facts.
Variable Math_log : float -> float.
Variable Math_pow : float -> float -> float.
Variable canonicalComponents : list EC.t.

Lemma pressure_from_recurrence prev rest i p c :
  (prev :: pressure_from prev rest) !! i = Some p ->
  (prev :: pressure_from prev rest) !! S i = Some c ->
  ER.delta_P c
  = (ER.delta_P p + ER.delta_H p + (ER.h p - ER.h c) + (ER.vp p - ER.vp c))%float.
Proof.
  revert prev i. induction rest as [|curr rest IH]; intros prev i Hp Hc.
  - destruct i; discriminate Hc.
  - cbn [pressure_from] in Hp, Hc. destruct i as [|i].
    + cbn in Hp, Hc. by simplify_eq.
    + eapply IH; [exact Hp|exact Hc].
Qed.

(** The pressure loop establishes the recurrence on any rows whose first
    one arrives with [delta_P = 0]. *)
Lemma pressure_establishes_recurrence rows :
  (forall first, head rows = Some first -> ER.delta_P first = 0%float) ->
  pressure_recurrence (pressure rows).
Proof.
  intros H0. destruct rows as [|first rest]; [by split|].
  change (pressure (first :: rest)) with (first :: pressure_from first rest).
  split.
  - intros first' Hf. injection Hf as <-. by apply H0.
  - intros i prev curr. apply pressure_from_recurrence.
Qed.

(** The rows [preNormalize] hands over all have [delta_P = 0]. *)
Lemma preNormalize_path_delta_P path :
  Forall (fun r => ER.delta_P r = 0%float) (preNormalize_path canonicalComponents path).
Proof.
  unfold preNormalize_path. apply Forall_lookup_2. intros i r Hr.
  apply list_lookup_imap_Some in Hr as (c & _ & ->). reflexivity.
Qed.

(** The rows as they reach the pressure loop. *)
Lemma before_pressure_shape rows :
  Forall2 (fun r y => exists h a dH,
             y = ER.with_delta_H dH (local_losses Math_log Math_pow
                   (ER.with_a a (ER.with_h h r))))
    rows (final_head_loss (local_losses Math_log Math_pow <$> head_and_area Math_pow rows)).
Proof.
  pose proof (head_and_area_shape Math_pow rows) as H1.
  pose proof (final_head_loss_shape
    (local_losses Math_log Math_pow <$> head_and_area Math_pow rows)) as H2.
  apply Forall2_fmap_l in H2.
  eapply Forall2_trans; [|exact H1|exact H2].
  intros r y z (h & a & ->) [dH Hz]. cbn beta in Hz. subst z. by exists h, a, dH.
Qed.

Lemma normalize_path_recurrence path :
  pressure_recurrence
    (normalize_path Math_log Math_pow (preNormalize_path canonicalComponents path)).
Proof.
  unfold normalize_path. apply pressure_establishes_recurrence.
  intros first Hf. rewrite head_lookup in Hf.
  pose proof (before_pressure_shape (preNormalize_path canonicalComponents path)) as Hs.
  destruct (Forall2_lookup_r _ _ _ _ _ Hs Hf) as (r & Hr & h & a & dH & ->).
  rewrite ER_delta_P_with_delta_H, local_losses_delta_P,
    ER_delta_P_with_a, ER_delta_P_with_h.
  pose proof (preNormalize_path_delta_P path) as H0.
  by eapply Forall_lookup_1 in H0.
Qed.

End pressure_facts.

(** C3. Pressure accumulation recurrence: every path is evaluated to as many
    rows as it has components, and in these rows the first has
    [delta_P = 0] and every later one has
    [delta_P[i] = delta_P[i-1] + delta_H[i-1] + (h[i-1] - h[i]) + (vp[i-1] - vp[i])],
    in the rows' final values and the source's order of operations. *)
Theorem pressure_accumulation
    (Math_log : float -> float) (Math_pow : float -> float -> float)
    (canonicalComponents : list EC.t) (paths : list (list EC.t)) :
  Forall2 (fun path rows => length rows = length path /\ pressure_recurrence rows)
    paths (normalize Math_log Math_pow (preNormalize canonicalComponents paths)).
Proof.
  unfold normalize, preNormalize. rewrite <- list_fmap_compose.
  apply Forall2_fmap_r, Forall2_same_length_lookup_2; [done|].
  intros k path path' Hk Hk'. rewrite Hk in Hk'. injection Hk' as <-.
  split; [|apply normalize_path_recurrence].
  cbn. rewrite normalize_path_length. unfold preNormalize_path.
  by rewrite length_imap.
Qed.

(** *** Rows of zero diameter *)

(** A float that compares equal to zero is not positive. *)
Lemma float_zero_not_positive (v : float) :
  (v =? 0)%float = true -> (0 <? v)%float = false.
Proof. intros [->| ->]%float_eqb_zero; reflexivity. Qed.

Lemma getDi_zero (d : float) : (d =? 0)%float = true -> (getDi d =? 0)%float = true.
Proof. intros [->| ->]%float_eqb_zero; reflexivity. Qed.

Lemma getVelocity_zero (Q di : float) :
  (di =? 0)%float = true -> getVelocity Q di = 0%float.
Proof. unfold getVelocity. by intros ->. Qed.

Section zero_diameter_facts.
Variable Math_log : float -> float.
Variable Math_pow : float -> float -> float.

Lemma reynolds_zero_row c :
  zero_row c -> zero_flow_row (reynolds_and_velocity_head c).
Proof.
  intros (Hd & Hdi & HV & Hf & Hk). unfold reynolds_and_velocity_head.
  repeat split; try done. cbn. by rewrite Hdi.
Qed.

Lemma friction_zero_row c :
  zero_flow_row c -> zero_flow_row (friction_factor Math_log Math_pow c).
Proof.
  intros ((Hd & Hdi & HV & Hf & Hk) & HRe). unfold friction_factor.
  destruct (String.eqb (ER.item c) "pipe"); [|done].
  rewrite (float_zero_not_positive _ Hd). by repeat split.
Qed.

Lemma discharge_area_zero_row c : zero_flow_row c -> zero_flow_row (discharge_area c).
Proof. unfold discharge_area. by case_match. Qed.

Lemma reducer_loss_zero_row c :
  zero_flow_row c -> zero_flow_row (reducer_loss Math_pow c).
Proof. unfold reducer_loss. cbv zeta. by repeat case_match. Qed.

Lemma tee_loss_zero_row c : zero_flow_row c -> zero_flow_row (tee_loss Math_pow c).
Proof.
  intros Hc. pose proof Hc as ((Hd & _) & _). unfold tee_loss. cbv zeta.
  rewrite Hd. by case_match.
Qed.

Lemma total_loss_zero_row c : zero_flow_row c -> zero_flow_row (total_loss c).
Proof. unfold total_loss. cbv zeta. by case_match. Qed.

Lemma local_losses_zero_row c :
  zero_row c -> zero_flow_row (local_losses Math_log Math_pow c).
Proof.
  intros Hc. unfold local_losses.
  by apply total_loss_zero_row, tee_loss_zero_row, reducer_loss_zero_row,
    discharge_area_zero_row, friction_zero_row, reynolds_zero_row.
Qed.

End zero_diameter_facts.

(** *** Rows of an evaluated path *)

Section evaluated_rows.
Variable Math_log : float -> float.
Variable Math_pow : float -> float -> float.
Variable canonicalComponents : list EC.t.

Local Abbreviation evaluated paths :=
  (normalize Math_log Math_pow (preNormalize canonicalComponents paths)).

Lemma evaluated_lookup paths k path :
  paths !! k = Some path ->
  evaluated paths !! k
  = Some (normalize_path Math_log Math_pow (preNormalize_path canonicalComponents path)).
Proof.
  intros Hk. unfold normalize, preNormalize. by rewrite !list_lookup_fmap, Hk.
Qed.

(** The row at position [i] of an evaluated path comes from the component at
    position [i] of the path. *)
Lemma evaluated_row_lookup path i c :
  path !! i = Some c ->
  exists r',
    normalize_path Math_log Math_pow (preNormalize_path canonicalComponents path) !! i
    = Some r' /\
    row_evaluated Math_log Math_pow (preNormalize_row canonicalComponents i c) r'.
Proof.
  intros Hc.
  pose proof (normalize_path_shape Math_log Math_pow
                (preNormalize_path canonicalComponents path)) as Hs.
  assert (Hr : preNormalize_path canonicalComponents path !! i
               = Some (preNormalize_row canonicalComponents i c)).
  { unfold preNormalize_path. by rewrite list_lookup_imap, Hc. }
  destruct (Forall2_lookup_l _ _ _ _ _ Hs Hr) as (r' & Hr' & He). by exists r'.
Qed.

(** [normalize] rewrites none of the fields [preNormalize] measured. *)
Lemma row_evaluated_measured r r' :
  row_evaluated Math_log Math_pow r r' ->
  ER.index r' = ER.index r /\ ER.item r' = ER.item r /\ ER.Q r' = ER.Q r /\
  ER.d r' = ER.d r /\ ER.L r' = ER.L r /\ ER.vertical r' = ER.vertical r /\
  ER.elbow r' = ER.elbow r /\ ER.reducer r' = ER.reducer r /\
  ER.t90 r' = ER.t90 r /\ ER.d90 r' = ER.d90 r /\ ER.q90 r' = ER.q90 r /\
  ER.di r' = ER.di r /\ ER.V r' = ER.V r.
Proof.
  intros (h & a & dH & dP & ->).
  pose proof (local_losses_frame Math_log Math_pow (ER.with_a a (ER.with_h h r))) as Hf.
  revert Hf. generalize (local_losses Math_log Math_pow (ER.with_a a (ER.with_h h r))).
  intros y Hf. unfold local_frame in Hf. cbn in Hf |- *. intuition congruence.
Qed.

Lemma row_evaluated_zero r r' :
  zero_row r -> row_evaluated Math_log Math_pow r r' ->
  ER.V r' = 0%float /\ ER.Re r' = 0%float /\ ER.f r' = 0%float /\ ER.ktee r' = 0%float.
Proof.
  intros Hz (h & a & dH & dP & ->).
  assert (Hz' : zero_row (ER.with_a a (ER.with_h h r))) by exact Hz.
  apply (local_losses_zero_row Math_log Math_pow) in Hz'.
  revert Hz'. generalize (local_losses Math_log Math_pow (ER.with_a a (ER.with_h h r))).
  intros y ((_ & _ & HV & Hf & Hk) & HRe). by repeat split.
Qed.

(** The index column of an evaluated path. *)
Lemma evaluated_path_index path :
  ER.index <$> normalize_path Math_log Math_pow
                 (preNormalize_path canonicalComponents path)
  = imap (fun i c => EC.draw_index c ?? (Z.of_nat i + 1)%Z) path.
Proof.
  apply list_eq. intros i. rewrite list_lookup_fmap, list_lookup_imap.
  destruct (path !! i) as [c|] eqn:Hc.
  - destruct (evaluated_row_lookup path i c Hc) as (r & -> & He).
    destruct (row_evaluated_measured _ _ He) as (Hi & _).
    cbn [fmap option_fmap option_map]. by rewrite Hi.
  - rewrite lookup_ge_None_2; [done|].
    rewrite normalize_path_length. unfold preNormalize_path.
    rewrite length_imap. by apply lookup_ge_None.
Qed.

End evaluated_rows.

(** C2 (as amended). Zero-diameter safety: for every component whose
    resolved diameter is 0, the evaluated row has [V], [Re], [f] and [ktee]
    exactly 0 (so none of them is NaN or infinite). The reducer coefficient
    [kred] is not among them: it is a function of the area ratio alone. *)
Theorem zero_diameter_rows
    (Math_log : float -> float) (Math_pow : float -> float -> float)
    (canonicalComponents : list EC.t) (paths : list (list EC.t))
    (k i : nat) (path : list EC.t) (c : EC.t) :
  paths !! k = Some path ->
  path !! i = Some c ->
  (EC.diameter c ?? 0 =? 0)%float = true ->
  exists rows r,
    normalize Math_log Math_pow (preNormalize canonicalComponents paths) !! k = Some rows /\
    rows !! i = Some r /\
    ER.d r = EC.diameter c ?? 0%float /\
    ER.V r = 0%float /\ ER.Re r = 0%float /\ ER.f r = 0%float /\ ER.ktee r = 0%float.
Proof.
  intros Hk Hi Hd.
  destruct (evaluated_row_lookup Math_log Math_pow canonicalComponents path i c Hi)
    as (r & Hr & He).
  exists (normalize_path Math_log Math_pow (preNormalize_path canonicalComponents path)), r.
  split; [by apply evaluated_lookup|]. split; [exact Hr|].
  split.
  - by destruct (row_evaluated_measured _ _ _ _ He) as (_ & _ & _ & -> & _).
  - eapply row_evaluated_zero; [|exact He].
    unfold zero_row. cbn [ER.d ER.di ER.V ER.f ER.ktee preNormalize_row].
    repeat split; [exact Hd|by apply getDi_zero|by apply getVelocity_zero, getDi_zero].
Qed.

(** C7 (as amended). Row index: the row of a component that carries a draw
    index has that draw index as its [index], wherever the component stands
    in the path; the row of a component without one (the synthetic reducer,
    [elbow90] and [elbow45] nodes) has its position in the path counted
    from 1. *)
Theorem row_index_of_component
    (Math_log : float -> float) (Math_pow : float -> float -> float)
    (canonicalComponents : list EC.t) (paths : list (list EC.t))
    (k i : nat) (path : list EC.t) (c : EC.t) :
  paths !! k = Some path ->
  path !! i = Some c ->
  exists rows r,
    normalize Math_log Math_pow (preNormalize canonicalComponents paths) !! k = Some rows /\
    rows !! i = Some r /\
    (forall n, EC.draw_index c = Some n -> ER.index r = n) /\
    (EC.draw_index c = None -> ER.index r = (Z.of_nat i + 1)%Z).
Proof.
  intros Hk Hi.
  destruct (evaluated_row_lookup Math_log Math_pow canonicalComponents path i c Hi)
    as (r & Hr & He).
  exists (normalize_path Math_log Math_pow (preNormalize_path canonicalComponents path)), r.
  split; [by apply evaluated_lookup|]. split; [exact Hr|].
  destruct (row_evaluated_measured _ _ _ _ He) as (-> & _).
  cbn [ER.index preNormalize_row]. split.
  - by intros n ->.
  - by intros ->.
Qed.

Section first_row_facts.
Variable Math_log : float -> float.
Variable Math_pow : float -> float -> float.
Variable canonicalComponents : list EC.t.

(** The per-row passes on a row that is not the discharge and has area
    ratio 0: the ratio stays, and the reducer pass sets the contraction
    coefficient at [a = 0]. *)
Lemma reynolds_contraction c :
  contraction_row c -> contraction_row (reynolds_and_velocity_head c).
Proof. done. Qed.

Lemma friction_contraction c :
  contraction_row c -> contraction_row (friction_factor Math_log Math_pow c).
Proof. unfold friction_factor. cbv zeta. by repeat case_match. Qed.

Lemma discharge_area_contraction c :
  contraction_row c -> contraction_row (discharge_area c).
Proof. intros [Hi Ha]. unfold discharge_area. by rewrite Hi. Qed.

Lemma reducer_loss_contraction c :
  contraction_row c ->
  contraction_row (reducer_loss Math_pow c) /\
  ER.kred (reducer_loss Math_pow c) = (-0.513 * 0 + 0.51)%float.
Proof. intros [Hi Ha]. unfold reducer_loss. cbv zeta. by rewrite Ha. Qed.

Lemma tee_loss_contraction c :
  contraction_row c ->
  contraction_row (tee_loss Math_pow c) /\
  ER.kred (tee_loss Math_pow c) = ER.kred c.
Proof. unfold tee_loss. cbv zeta. by repeat case_match. Qed.

Lemma total_loss_contraction c :
  contraction_row c ->
  contraction_row (total_loss c) /\ ER.kred (total_loss c) = ER.kred c.
Proof. intros [Hi Ha]. unfold total_loss. cbv zeta. by rewrite Hi. Qed.

Lemma local_losses_contraction c :
  contraction_row c ->
  ER.a (local_losses Math_log Math_pow c) = 0%float /\
  ER.kred (local_losses Math_log Math_pow c) = (-0.513 * 0 + 0.51)%float.
Proof.
  intros Hc. unfold local_losses.
  apply reynolds_contraction, friction_contraction, discharge_area_contraction,
    reducer_loss_contraction in Hc as [Hc Hk].
  apply tee_loss_contraction in Hc as [Hc Hk']. rewrite <- Hk' in Hk.
  apply total_loss_contraction in Hc as [[_ Ha] Hk'']. rewrite <- Hk'' in Hk.
  by split.
Qed.

(** The first row of a path goes through the per-row passes as
    [preNormalize] made it: the two loops from [i = 1] leave it alone, and
    only its head loss may be replaced afterwards. *)
Lemma normalize_path_head first rest :
  exists dH,
    head (normalize_path Math_log Math_pow (first :: rest))
    = Some (ER.with_delta_H dH (local_losses Math_log Math_pow first)).
Proof.
  unfold normalize_path.
  change (head_and_area Math_pow (first :: rest))
    with (first :: head_and_area_from Math_pow first rest).
  rewrite fmap_cons.
  generalize (local_losses Math_log Math_pow first). intros y.
  generalize (local_losses Math_log Math_pow <$> head_and_area_from Math_pow first rest).
  intros ys. pose proof (final_head_loss_shape (y :: ys)) as Hs.
  apply Forall2_cons_inv_l in Hs as (y' & ys' & [dH ->] & _ & ->).
  by exists dH.
Qed.

End first_row_facts.

(** C10. Implicit first-element loss default: in every evaluated path whose
    first element is not a discharge, the first row's area ratio stays 0 and
    its reducer loss coefficient is [-0.513 * 0 + 0.51 = 0.51], whatever the
    diameters in the path. *)
Theorem first_row_loss_default
    (Math_log : float -> float) (Math_pow : float -> float -> float)
    (canonicalComponents : list EC.t) (paths : list (list EC.t))
    (k : nat) (path : list EC.t) (c : EC.t) :
  paths !! k = Some path ->
  head path = Some c ->
  EC.type c <> Some "discharge" ->
  exists rows first,
    normalize Math_log Math_pow (preNormalize canonicalComponents paths) !! k = Some rows /\
    head rows = Some first /\
    ER.a first = 0%float /\
    ER.kred first = (-0.513 * 0 + 0.51)%float /\
    ER.kred first = 0.51%float.
Proof.
  intros Hk Hc Ht. destruct path as [|c' rest]; [done|]. injection Hc as ->.
  destruct (normalize_path_head Math_log Math_pow
              (preNormalize_row canonicalComponents 0 c)
              (imap (preNormalize_row canonicalComponents ∘ S) rest)) as [dH Hfirst].
  eexists _, _. split; [by apply evaluated_lookup|]. split; [exact Hfirst|].
  destruct (local_losses_contraction Math_log Math_pow
              (preNormalize_row canonicalComponents 0 c)) as [Ha Hkred].
  { split; [|reflexivity]. cbn [ER.item preNormalize_row].
    destruct (EC.type c) as [ty|] eqn:E; [|reflexivity].
    apply String.eqb_neq. cbn. congruence. }
  revert Ha Hkred.
  generalize (local_losses Math_log Math_pow (preNormalize_row canonicalComponents 0 c)).
  intros y Ha Hkred. by repeat split.
Qed.

(** ** Outlet paths *)

Lemma findIndex_from_None {A} (p : nat -> A -> bool) i l :
  Forall (fun x => forall j, p j x = false) l -> findIndex_from p i l = None.
Proof.
  intros H. revert i. induction H as [|x l Hx _ IH]; intros i; [done|].
  cbn. by rewrite Hx.
Qed.

(** C5 (as amended). Missing-discharge fallback: for a component list that
    is not empty and holds no discharge, the path decomposer returns exactly
    one path, the whole list in its order. *)
Theorem splitByOutlet_without_discharge (components : list EC.t) :
  components <> [] ->
  Forall (fun c => EC.type c <> Some "discharge") components ->
  splitByOutlet components = [components].
Proof.
  intros Hne Hnd. unfold splitByOutlet.
  destruct (decide (length components = 0%nat)) as [H0|_].
  { by apply length_zero_iff_nil in H0. }
  unfold findIndex. rewrite findIndex_from_None; [done|].
  eapply Forall_impl; [exact Hnd|]. intros c Hc _. by apply EC_type_is_false.
Qed.

(** C5, witness. *)
Lemma splitByOutlet_without_discharge_witness :
  splitByOutlet Sample.bare_pipe = [Sample.bare_pipe].
Proof.
  apply (splitByOutlet_without_discharge Sample.bare_pipe); [done|].
  by repeat constructor.
Defined.

(** C5, counterexample: the empty list holds no discharge, and the
    decomposer returns no path for it. *)
Lemma splitByOutlet_empty_counterexample :
  Forall (fun c => EC.type c <> Some "discharge") [] /\
  splitByOutlet [] = [] /\
  splitByOutlet [] <> [[]].
Proof. by repeat split. Qed.

(** ** Witnesses and counterexamples on the sample networks *)

(** C1, witness: the tee of [Sample.branch]. *)
Lemma fillCapacity_flow_conservation_witness :
  exists main : float,
    fillCapacity (fillTee Sample.branch) !! 2%nat ≫= EC.capacity = Some main /\
    fillCapacity (fillTee Sample.branch) !! 1%nat ≫= EC.capacity
    = Some (main + side_flow 0 (drop 3 (fillCapacity (fillTee Sample.branch))))%float.
Proof.
  eapply (fillCapacity_flow_conservation (fillTee Sample.branch) 1); reflexivity.
Defined.

(** C1, counterexample: in [Sample.tee_after_outlet] the outlet paired with
    the tee is drawn before it, so the [tee_side] stands upstream of the
    [tee_main]. The [tee_main] gets 3, the [tee_side] with the same
    reference gets 3, and the component immediately upstream of the
    [tee_main] gets 3, not 6. *)
Lemma flow_conservation_counterexample :
  (exists up tee side,
     fillCapacity (fillTee Sample.tee_after_outlet) !! 3%nat = Some side /\
     fillCapacity (fillTee Sample.tee_after_outlet) !! 4%nat = Some up /\
     fillCapacity (fillTee Sample.tee_after_outlet) !! 5%nat = Some tee /\
     EC.type tee = Some "tee_main" /\ EC.tee_ref tee = Some 0%Z /\
     EC.type side = Some "tee_side" /\ EC.tee_ref side = Some 0%Z /\
     EC.capacity tee = Some 3%float /\
     EC.capacity side = Some 3%float /\
     EC.capacity up = Some 3%float) /\
  (3 + 3 =? 3)%float = false.
Proof.
  split; [|reflexivity]. eexists _, _, _.
  split; [vm_compute; reflexivity|]. split; [vm_compute; reflexivity|].
  split; [vm_compute; reflexivity|]. by repeat split.
Qed.

(** C2, witness: the pipe of [Sample.bare_pipe], which has no diameter. *)
Lemma zero_diameter_rows_witness :
  (EC.diameter (Sample.component edge 0 "pipe") ?? 0 =? 0)%float = true /\
  forall Math_log Math_pow,
  exists rows r,
    normalize Math_log Math_pow (preNormalize Sample.bare_pipe [Sample.bare_pipe])
      !! 0%nat = Some rows /\
    rows !! 0%nat = Some r /\
    ER.d r = EC.diameter (Sample.component edge 0 "pipe") ?? 0%float /\
    ER.V r = 0%float /\ ER.Re r = 0%float /\ ER.f r = 0%float /\ ER.ktee r = 0%float.
Proof.
  split; [reflexivity|]. intros Math_log Math_pow.
  apply (zero_diameter_rows Math_log Math_pow Sample.bare_pipe [Sample.bare_pipe]
           0 0 Sample.bare_pipe); reflexivity.
Defined.

(** C2, counterexample: the only row of [Sample.bare_pipe] has diameter 0
    and reducer loss coefficient 0.51, whatever [Math.log] and [Math.pow]
    return. *)
Lemma zero_diameter_kred_counterexample :
  (forall Math_log Math_pow,
   exists r,
     Calculations Math_log Math_pow Sample.bare_pipe = [[r]] /\
     ER.d r = 0%float /\ ER.kred r = 0.51%float) /\
  (0.51 =? 0)%float = false.
Proof.
  split; [|reflexivity]. intros Math_log Math_pow.
  eexists. split; [vm_compute; reflexivity|]. by split.
Qed.

(** C7, witness: the reducer spliced into [Sample.bend], fourth in its path. *)
Lemma row_index_of_component_witness :
  organize (canonical Sample.bend) !! 0%nat
  = Some (Sample.bend_path) /\
  Sample.bend_path !! 3%nat = Some Sample.bend_reducer /\
  forall Math_log Math_pow,
  exists rows r,
    normalize Math_log Math_pow
      (preNormalize (canonical Sample.bend) (organize (canonical Sample.bend)))
      !! 0%nat = Some rows /\
    rows !! 3%nat = Some r /\
    (forall n, EC.draw_index Sample.bend_reducer = Some n -> ER.index r = n) /\
    (EC.draw_index Sample.bend_reducer = None -> ER.index r = (Z.of_nat 3 + 1)%Z).
Proof.
  split; [vm_compute; reflexivity|]. split; [reflexivity|].
  intros Math_log Math_pow.
  apply (row_index_of_component Math_log Math_pow (canonical Sample.bend)
           (organize (canonical Sample.bend)) 0 3 Sample.bend_path Sample.bend_reducer).
  - vm_compute; reflexivity.
  - reflexivity.
Defined.

(** C7, counterexample: in the one path of [Sample.bend] the reducer has no
    draw index and its row has index 4, its position counted from 1, which
    is also the index of the row of the pipe drawn fourth. *)
Lemma row_index_counterexample :
  organize (canonical Sample.bend) = [Sample.bend_path] /\
  Sample.bend_path !! 3%nat = Some Sample.bend_reducer /\
  EC.draw_index Sample.bend_reducer = None /\
  Sample.bend_path !! 4%nat ≫= EC.draw_index = Some 4%Z /\
  forall Math_log Math_pow,
    (fun rows : list ER.t => ER.index <$> rows)
      <$> Calculations Math_log Math_pow Sample.bend
    = [[1; 2; 3; 4; 4; 5]%Z].
Proof.
  split; [vm_compute; reflexivity|]. split; [reflexivity|].
  split; [reflexivity|]. split; [reflexivity|].
  intros Math_log Math_pow. unfold Calculations. cbv zeta.
  assert (organize (canonical Sample.bend) = [Sample.bend_path]) as ->
    by (vm_compute; reflexivity).
  change (preNormalize ?cc [?p]) with [preNormalize_path cc p].
  change (normalize ?l ?p [?x]) with [normalize_path l p x].
  rewrite !fmap_cons, fmap_nil, evaluated_path_index. reflexivity.
Qed.

(** C10, witness: the pipe that opens the path of [Sample.bare_pipe]. *)
Lemma first_row_loss_default_witness :
  EC.type (Sample.component edge 0 "pipe") <> Some "discharge" /\
  forall Math_log Math_pow,
  exists rows first,
    normalize Math_log Math_pow (preNormalize Sample.bare_pipe [Sample.bare_pipe])
      !! 0%nat = Some rows /\
    head rows = Some first /\
    ER.a first = 0%float /\
    ER.kred first = (-0.513 * 0 + 0.51)%float /\
    ER.kred first = 0.51%float.
Proof.
  split; [done|]. intros Math_log Math_pow.
  apply (first_row_loss_default Math_log Math_pow Sample.bare_pipe [Sample.bare_pipe]
           0 Sample.bare_pipe (Sample.component edge 0 "pipe")); done.
Defined.

(** *** Searches, folds and maps *)










(** *** The scan for the last outlet *)



(** *** Branch paths *)

Section decomposition.
Variables (d : EC.t) (rest : list EC.t).
Hypothesis discharge_first : EC.type d = Some "discharge".

Local Abbreviation components := (d :: rest).






(** *** Deduplication *)



(** *** The fallback path *)


End decomposition.

(** *** Reordering *)









(** ** The object store *)

Section store.
Variable h0 : Heap.heap.

Local Abbreviation respects' := (respects h0).
Local Abbreviation own' := (own h0).

Lemma own_monotone : monotone own'.
Proof. unfold monotone, own. lia. Qed.

Lemma valid_monotone : monotone (fun n (a : Heap.addr) => (a < n)%nat).
Proof. unfold monotone. lia. Qed.

Lemma Forall_monotone {A} (Q : nat -> A -> Prop) :
  monotone Q -> monotone (fun n l => Forall (Q n) l).
Proof.
  intros HQ n n' l Hn Hl. eapply Forall_impl; [exact Hl|]. intros a. by apply HQ.
Qed.

Lemma respects_ret {A} (a : A) h (Q : nat -> A -> Prop) :
  h0 `prefix_of` h -> Q (length h) a -> respects' (Heap.ret a) h Q.
Proof. intros Hp HQ. by exists a, h. Qed.

Lemma respects_bind {A B} (m : Heap.M A) (f : A -> Heap.M B) h
    (Q : nat -> A -> Prop) (R : nat -> B -> Prop) :
  respects' m h Q ->
  (forall a h', h0 `prefix_of` h' -> (length h <= length h')%nat ->
                Q (length h') a -> respects' (f a) h' R) ->
  respects' (Heap.bind m f) h R.
Proof.
  intros (a & h1 & E & Hp & Hl & HQ) Hf.
  destruct (Hf a h1 Hp Hl HQ) as (b & h2 & E2 & Hp2 & Hl2 & HR).
  exists b, h2. unfold Heap.bind. rewrite E. repeat split; [done|done|lia|done].
Qed.

Lemma respects_weaken {A} (m : Heap.M A) h (Q Q' : nat -> A -> Prop) :
  respects' m h Q -> (forall n a, Q n a -> Q' n a) -> respects' m h Q'.
Proof. intros (a & h1 & E & Hp & Hl & HQ) HQQ. exists a, h1. eauto. Qed.

(** A fact about the length of the store that survives its growth. *)
Lemma respects_keep {A} (m : Heap.M A) h (Q : nat -> A -> Prop) (F : nat -> Prop) :
  (forall n n', (n <= n')%nat -> F n -> F n') -> F (length h) ->
  respects' m h Q -> respects' m h (fun n a => Q n a /\ F n).
Proof.
  intros HF Hh (a & h1 & E & Hp & Hl & HQ). exists a, h1.
  repeat split; try done. by eapply HF, Hh.
Qed.

Lemma respects_alloc o h :
  h0 `prefix_of` h -> respects' (Heap.alloc o) h own'.
Proof.
  intros Hp. exists (length h), (h ++ [o]). unfold own.
  rewrite length_app. cbn. repeat split; [by apply prefix_app_r|lia| |lia].
  by apply prefix_length.
Qed.

Lemma respects_read a h :
  h0 `prefix_of` h -> (a < length h)%nat ->
  respects' (Heap.read a) h (fun _ _ => True).
Proof.
  intros Hp Ha. destruct (lookup_lt_is_Some_2 h a Ha) as [o Ho].
  exists o, h. unfold Heap.read. by rewrite Ho.
Qed.

(** A write to one of the class's own objects leaves the caller's alone. *)
Lemma respects_write a f h :
  h0 `prefix_of` h -> own' (length h) a ->
  respects' (Heap.write a f) h (fun _ _ => True).
Proof.
  intros [k ->] [Hlo Hhi]. destruct (lookup_lt_is_Some_2 _ a Hhi) as [o Ho].
  exists tt, (<[a := f o]> (h0 ++ k)). unfold Heap.write. rewrite Ho.
  rewrite length_insert. repeat split; [|done].
  rewrite insert_app_r_alt by done. by apply prefix_app_r.
Qed.

Lemma respects_mapM {A B} (f : A -> Heap.M B) (P : nat -> A -> Prop)
    (Q : nat -> B -> Prop) l h :
  monotone P -> monotone Q ->
  (forall x h, h0 `prefix_of` h -> P (length h) x -> respects' (f x) h Q) ->
  h0 `prefix_of` h -> Forall (P (length h)) l ->
  respects' (Heap.mapM f l) h (fun n ys => Forall (Q n) ys /\ length ys = length l).
Proof.
  intros HP HQ Hf. revert h. induction l as [|x l IH]; intros h Hp Hl.
  - by apply respects_ret.
  - apply Forall_cons in Hl as [Hx Hl]. cbn [Heap.mapM].
    eapply respects_bind; [by apply Hf|]. intros y h1 Hp1 Hl1 Hy.
    eapply respects_bind.
    { apply IH; [done|]. by eapply (Forall_monotone P HP), Hl. }
    intros ys h2 Hp2 Hl2 [Hys Hlen]. apply respects_ret; [done|].
    cbn. split; [|by rewrite Hlen]. constructor; [|done]. by eapply HQ, Hy.
Qed.

Lemma respects_foldM {S A} (f : S -> A -> Heap.M S) (I : nat -> S -> Prop)
    (P : nat -> A -> Prop) l s h :
  monotone I -> monotone P ->
  (forall s x h, h0 `prefix_of` h -> I (length h) s -> P (length h) x ->
                 respects' (f s x) h I) ->
  h0 `prefix_of` h -> I (length h) s -> Forall (P (length h)) l ->
  respects' (Heap.foldM f s l) h I.
Proof.
  intros HI HP Hf. revert s h. induction l as [|x l IH]; intros s h Hp Hs Hl.
  - by apply respects_ret.
  - apply Forall_cons in Hl as [Hx Hl]. cbn [Heap.foldM].
    eapply respects_bind; [by apply Hf|]. intros s1 h1 Hp1 Hl1 Hs1.
    apply IH; [done|done|]. by eapply (Forall_monotone P HP), Hl.
Qed.

(** Reading the objects of an array. *)
Lemma respects_read_all arr h :
  h0 `prefix_of` h -> Forall (fun a => (a < length h)%nat) arr ->
  respects' (Heap.mapM Heap.read arr) h (fun _ objects => length objects = length arr).
Proof.
  intros Hp Harr.
  eapply respects_weaken.
  - apply (respects_mapM Heap.read (fun n a => (a < n)%nat) (fun _ _ => True));
      [apply valid_monotone|done| |done|done].
    intros x h' Hp' Hx. by apply respects_read.
  - by intros n objects [_ ?].
Qed.

Lemma own_valid n a : own' n a -> (a < n)%nat.
Proof. unfold own. lia. Qed.

Lemma Forall_own_valid n arr : Forall (own' n) arr -> Forall (fun a => (a < n)%nat) arr.
Proof. intros H. eapply Forall_impl; [exact H|]. apply own_valid. Qed.

Lemma respects_copy a h :
  h0 `prefix_of` h -> (a < length h)%nat -> respects' (Heap.copy a) h own'.
Proof.
  intros Hp Ha. unfold Heap.copy.
  eapply respects_bind; [by apply respects_read|].
  intros o h1 Hp1 _ _. by apply respects_alloc.
Qed.

Lemma respects_copies arr h :
  h0 `prefix_of` h -> Forall (fun a => (a < length h)%nat) arr ->
  respects' (Heap.mapM Heap.copy arr) h (fun n res => Forall (own' n) res).
Proof.
  intros Hp Harr. eapply respects_weaken.
  - apply (respects_mapM Heap.copy (fun n a => (a < n)%nat) own');
      [apply valid_monotone|apply own_monotone| |done|done].
    intros x h' Hp' Hx. by apply respects_copy.
  - by intros n res [? _].
Qed.

Lemma respects_allocs objects h :
  h0 `prefix_of` h ->
  respects' (Heap.mapM Heap.alloc objects) h (fun n res => Forall (own' n) res).
Proof.
  intros Hp. eapply respects_weaken.
  - apply (respects_mapM Heap.alloc (fun _ _ => True) own');
      [done|apply own_monotone| |done|].
    + intros x h' Hp' _. by apply respects_alloc.
    + by apply Forall_true.
  - by intros n res [? _].
Qed.

Lemma Forall_splice_in {A} (P : A -> Prop) i x l :
  P x -> Forall P l -> Forall P (splice_in i x l).
Proof.
  intros Hx Hl. unfold splice_in. apply Forall_app. split.
  - by apply Forall_take.
  - constructor; [done|by apply Forall_drop].
Qed.

(** The steps of [fillTee] write only to the objects of [result], which the
    class made itself. *)
Lemma respects_normalize_tee nextTeeRef a h :
  h0 `prefix_of` h -> own' (length h) a ->
  respects' (Heap.normalize_tee nextTeeRef a) h (fun _ _ => True).
Proof.
  intros Hp Ha. unfold Heap.normalize_tee.
  eapply respects_bind; [by apply respects_read, own_valid|].
  intros comp h1 Hp1 Hl1 _.
  assert (Ha1 : own' (length h1) a) by by eapply own_monotone, Ha.
  destruct (EC.type_is "tee" comp); [|by apply respects_ret].
  eapply respects_bind with (Q := fun _ _ => True).
  - destruct (EC.tee_ref comp); [by apply respects_ret|].
    eapply respects_bind; [by apply respects_write|].
    intros _ h2 Hp2 _ _. by apply respects_ret.
  - intros n h2 Hp2 Hl2 _. eapply respects_bind.
    + apply respects_write; [done|]. by eapply own_monotone, Ha1.
    + intros _ h3 Hp3 _ _. by apply respects_ret.
Qed.

Lemma respects_pair_outlet result p h :
  h0 `prefix_of` h -> Forall (own' (length h)) result ->
  respects' (Heap.pair_outlet result p) h (fun _ _ => True).
Proof.
  intros Hp Hres. destruct p as [teeIdx outletIdx]. unfold Heap.pair_outlet.
  destruct (result !! teeIdx) as [tee|] eqn:Htee; [|by apply respects_ret].
  destruct (result !! outletIdx) as [outlet|] eqn:Hout; [|by apply respects_ret].
  assert (Ht : own' (length h) tee) by by eapply Forall_lookup_1 in Htee.
  assert (Ho : own' (length h) outlet) by by eapply Forall_lookup_1 in Hout.
  eapply respects_bind; [by apply respects_read, own_valid|].
  intros t h1 Hp1 Hl1 _.
  assert (Ho1 : own' (length h1) outlet) by by eapply own_monotone, Ho.
  eapply respects_bind; [by apply respects_read, own_valid|].
  intros o h2 Hp2 Hl2 _.
  destruct (EC.tee_ref o); [by apply respects_ret|].
  destruct (EC.tee_ref t); [|by apply respects_ret].
  apply respects_write; [done|]. by eapply own_monotone, Ho1.
Qed.

Lemma respects_insert_elbow90 st teeIdx h :
  h0 `prefix_of` h -> Forall (own' (length h)) st.2 ->
  respects' (Heap.insert_elbow90 st teeIdx) h (fun n st' => Forall (own' n) st'.2).
Proof.
  destruct st as [indexOffset result]. cbn [snd]. intros Hp Hres.
  unfold Heap.insert_elbow90.
  eapply respects_bind; [by apply respects_read_all, Forall_own_valid|].
  intros objects h1 Hp1 Hl1 _.
  assert (Hres1 : Forall (own' (length h1)) result)
    by by eapply (Forall_monotone _ own_monotone), Hres.
  destruct (elbow90_at objects _) as [elbow90|]; [|by apply respects_ret].
  eapply respects_bind; [by apply respects_alloc|].
  intros a h2 Hp2 Hl2 Ha. apply respects_ret; [done|]. cbn [snd].
  apply Forall_splice_in; [done|].
  by eapply (Forall_monotone _ own_monotone), Hres1.
Qed.

Lemma respects_insert_tee_side result outletIndex h :
  h0 `prefix_of` h -> Forall (own' (length h)) result ->
  respects' (Heap.insert_tee_side result outletIndex) h
    (fun n result' => Forall (own' n) result').
Proof.
  intros Hp Hres. unfold Heap.insert_tee_side.
  eapply respects_bind; [by apply respects_read_all, Forall_own_valid|].
  intros objects h1 Hp1 Hl1 _.
  assert (Hres1 : Forall (own' (length h1)) result)
    by by eapply (Forall_monotone _ own_monotone), Hres.
  destruct (tee_side_at objects _) as [[teeSide elbow45]|]; [|by apply respects_ret].
  eapply respects_bind; [by apply respects_alloc|].
  intros a h2 Hp2 Hl2 Ha.
  eapply respects_bind; [by apply respects_alloc|].
  intros b h3 Hp3 Hl3 Hb. apply respects_ret; [done|].
  apply Forall_splice_in; [done|]. apply Forall_splice_in.
  - by eapply own_monotone, Ha.
  - eapply (Forall_monotone _ own_monotone); [|exact Hres1]. lia.
Qed.

Lemma respects_fillTee components h :
  h0 `prefix_of` h -> Forall (fun a => (a < length h)%nat) components ->
  respects' (Heap.fillTee components) h (fun n result => Forall (own' n) result).
Proof.
  intros Hp Hc. unfold Heap.fillTee.
  eapply respects_bind; [by apply respects_copies|].
  intros result h1 Hp1 Hl1 Hres1.
  eapply respects_bind.
  { apply (respects_foldM Heap.normalize_tee (fun _ _ => True) own');
      [done|apply own_monotone| |done|done|done].
    intros s x h' Hp' _ Hx. by apply respects_normalize_tee. }
  intros _ h2 Hp2 Hl2 _.
  assert (Hres2 : Forall (own' (length h2)) result)
    by by eapply (Forall_monotone _ own_monotone), Hres1.
  eapply respects_bind; [by apply respects_read_all, Forall_own_valid|].
  intros objects h3 Hp3 Hl3 _.
  assert (Hres3 : Forall (own' (length h3)) result)
    by by eapply (Forall_monotone _ own_monotone), Hres2.
  eapply respects_bind.
  { apply (respects_foldM (fun _ p => Heap.pair_outlet result p)
             (fun n _ => Forall (own' n) result) (fun _ _ => True));
      [|done| |done|done|by apply Forall_true].
    - intros n n' _ Hn. by apply (Forall_monotone _ own_monotone).
    - intros s x h' Hp' Hres' _. eapply respects_weaken.
      + apply (respects_keep _ _ (fun _ _ => True)
                 (fun n => Forall (own' n) result));
          [|exact Hres'|by apply respects_pair_outlet].
        intros n n' Hn. by apply (Forall_monotone _ own_monotone).
      + by intros n a [_ H]. }
  intros _ h4 Hp4 Hl4 _.
  assert (Hres4 : Forall (own' (length h4)) result)
    by by eapply (Forall_monotone _ own_monotone), Hres3.
  eapply respects_bind.
  { apply (respects_foldM Heap.insert_elbow90
             (fun n st => Forall (own' n) st.2) (fun _ _ => True));
      [|done| |done|done|by apply Forall_true].
    - intros n n' st Hn. by apply (Forall_monotone _ own_monotone).
    - intros s x h' Hp' Hs _. by apply respects_insert_elbow90. }
  intros st h5 Hp5 Hl5 Hst.
  eapply respects_bind; [by apply respects_read_all, Forall_own_valid|].
  intros objects' h6 Hp6 Hl6 _.
  apply (respects_foldM Heap.insert_tee_side
           (fun n result => Forall (own' n) result) (fun _ _ => True));
    [|done| |done| |by apply Forall_true].
  - intros n n' res Hn. by apply (Forall_monotone _ own_monotone).
  - intros s x h' Hp' Hs _. by apply respects_insert_tee_side.
  - by eapply (Forall_monotone _ own_monotone), Hst.
Qed.

Lemma respects_map_copies pass arr h :
  h0 `prefix_of` h -> Forall (own' (length h)) arr ->
  respects' (Heap.map_copies pass arr) h (fun n res => Forall (own' n) res).
Proof.
  intros Hp Harr. unfold Heap.map_copies.
  eapply respects_bind; [by apply respects_read_all, Forall_own_valid|].
  intros objects h1 Hp1 _ _. by apply respects_allocs.
Qed.

Lemma respects_constructor input h :
  h0 `prefix_of` h -> Forall (fun a => (a < length h)%nat) input ->
  respects' (Heap.constructor input) h (fun _ _ => True).
Proof.
  intros Hp Hin. unfold Heap.constructor.
  eapply respects_bind; [by apply respects_copies|].
  intros canonical1 h1 Hp1 Hl1 Hc1.
  eapply respects_bind; [by apply respects_read_all, Forall_own_valid|].
  intros objects h2 Hp2 Hl2 _.
  eapply respects_bind.
  { apply (respects_mapM _ own' own');
      [apply own_monotone|apply own_monotone| |done|].
    - intros a h' Hp' Ha.
      eapply respects_bind; [by apply respects_read, own_valid|].
      intros comp h'' Hp'' Hl'' _.
      destruct (_ && _); [by apply respects_alloc|].
      apply respects_ret; [done|]. by eapply own_monotone, Ha.
    - by eapply (Forall_monotone _ own_monotone), Hc1. }
  intros canonical2 h3 Hp3 Hl3 [Hc2 _].
  eapply respects_bind; [by apply respects_copies, Forall_own_valid|].
  intros components h4 Hp4 Hl4 Hcomp.
  eapply respects_bind; [by apply respects_fillTee, Forall_own_valid|].
  intros withTees h5 Hp5 Hl5 Htees.
  eapply respects_bind; [by apply respects_map_copies|].
  intros withCapacity h6 Hp6 Hl6 Hcap.
  eapply respects_bind; [by apply respects_map_copies|].
  intros filled h7 Hp7 Hl7 Hfilled.
  eapply respects_bind.
  { apply respects_read_all; [done|]. apply Forall_own_valid.
    eapply (Forall_monotone _ own_monotone); [|exact Hc2]. lia. }
  intros canonicalObjects h8 Hp8 Hl8 _.
  eapply respects_bind.
  { apply respects_read_all; [done|]. apply Forall_own_valid.
    by eapply (Forall_monotone _ own_monotone), Hfilled. }
  intros filledObjects h9 Hp9 Hl9 _. by apply respects_ret.
Qed.

End store.

(** C8. Input immutability: from any store and for any input array whose
    addresses are in the store, a [Calculations] invocation ends with rows
    and leaves every object the store held before, so every component of
    the caller, field for field as it was; whatever it writes, it writes to
    objects it made itself. *)
Theorem Calculations_keeps_input
    (Math_log : float -> float) (Math_pow : float -> float -> float)
    (h : Heap.heap) (input : list Heap.addr) :
  Forall (fun a => (a < length h)%nat) input ->
  exists rows h',
    Heap.Calculations Math_log Math_pow input h = Some (rows, h') /\
    forall a o, h !! a = Some o -> h' !! a = Some o.
Proof.
  intros Hin.
  destruct (respects_constructor h input h) as (built & h' & E & Hp & _);
    [done|done|].
  unfold Heap.Calculations, Heap.bind. rewrite E. destruct built as [c f].
  eexists _, h'. split; [reflexivity|].
  intros a o Ho. by eapply prefix_lookup_Some.
Qed.

(** C8, witness: [Sample.branch] as the caller's objects, alone in the
    store. *)
Lemma Calculations_keeps_input_witness :
  Forall (fun a => (a < length Sample.branch)%nat) [0; 1; 2; 3; 4; 5; 6]%nat /\
  forall Math_log Math_pow,
  exists rows h',
    Heap.Calculations Math_log Math_pow [0; 1; 2; 3; 4; 5; 6]%nat Sample.branch
    = Some (rows, h') /\
    forall a o, Sample.branch !! a = Some o -> h' !! a = Some o.
Proof.
  assert (H : Forall (fun a => (a < length Sample.branch)%nat) [0; 1; 2; 3; 4; 5; 6]%nat).
  { repeat constructor. }
  split; [exact H|]. intros Math_log Math_pow.
  exact (Calculations_keeps_input Math_log Math_pow Sample.branch _ H).
Defined.
